(** * Session token lifecycle of the Varzesha front end

    A shallow embedding of [src/api/client.ts] (the axios instance
    [apiClient] with its request and response interceptors, the
    [refreshToken] exchange and the subscriber list) and of the [logout]
    action of the zustand store [useAuthStore].

    JavaScript runs the code on one thread: a continuation runs to its next
    [await] without interruption.  The embedding therefore cuts every async
    function at its awaits; each piece is a state transformer over [World],
    and [step] runs one piece in answer to an [Event] of the event loop. *)

From Stdlib Require Import QArith.
From stdpp Require Import gmap strings list fin_maps.

(** ** JavaScript values *)

(** [if (s)] on a [string | null]: [null] and the empty string are falsy. *)
Definition truthy (s : option string) : bool :=
  match s with
  | Some s => negb (String.eqb s EmptyString)
  | None => false
  end.

(** The outcome of evaluating an expression: a value, or a thrown error. *)
Inductive completion (A : Type) : Type :=
| Normal (a : A)
| Throw.
Arguments Normal {A} a.
Arguments Throw {A}.

(** The payload of a decoded token; [exp] is [None] when the payload has no
    numeric [exp] member (a comparison with [undefined] is false). *)
Record Claims := mkClaims { exp : option Q }.

(** [x < y] on numbers. *)
Definition js_lt (x : option Q) (y : Q) : bool :=
  match x with
  | Some x => match Qcompare x y with Lt => true | _ => false end
  | None => false
  end.

(** [Date.now() / 1000], with [Date.now()] in milliseconds; the quotient
    is taken as the exact rational. *)
Definition seconds (now : Z) : Q := Qmake now 1000.

(** ** Request configurations *)

(** The [InternalAxiosRequestConfig] an interceptor receives, with the
    [_retry] mark the response interceptor adds ([undefined] reads as
    [false] under [!]). *)
Record Config := mkConfig {
  url : string;
  method : string;
  data : string;
  headers : gmap string string;
  _retry : bool
}.

Definition Bearer (token : string) : string := "Bearer " +:+ token.

(** [config.headers.Authorization = `Bearer ${token}`] *)
Definition set_Authorization (token : string) (config : Config) : Config :=
  {| url := url config; method := method config; data := data config;
     headers := <["Authorization" := Bearer token]> (headers config);
     _retry := _retry config |}.

(** [originalRequest._retry = true] *)
Definition set_retry (config : Config) : Config :=
  {| url := url config; method := method config; data := data config;
     headers := headers config; _retry := true |}.

(** A subscriber closure [(newToken) => { config.headers.Authorization = ...;
    resolve(config) }]: it captures the config of the request that waits and
    the resolver of that request's promise, named here by the request id. *)
Record Callback := mkCallback { cb_id : nat; cb_config : Config }.

(** How the promise handed to the caller settles: with a response, or with
    an [AxiosError] whose [response?.status] is given. *)
Inductive Outcome :=
| Fulfilled (status : nat)
| Rejected (status : option nat).

(** What the transport answers to a transmitted request. *)
Inductive Reply :=
| Success (status : nat)
| Failure (status : option nat).

(** Effects visible outside the module, in the order they happen. *)
Inductive Effect :=
| RefreshPost (refresh : string)
| Transmit (id : nat) (config : Config)
| Replay (id : nat)
| Invoke (id : nat) (token : string)
| Navigate (href : string)
| ConsoleError
| Settle (id : nat) (o : Outcome).

(** Where a request stands between two turns of the event loop. *)
Inductive Task :=
| OutAwaitPost (config : Config)
| OutAwaitRefresh (config : Config) (newToken : option string)
| Subscribed
| InFlight (config : Config)
| InAwaitPost (originalRequest : Config) (status : option nat)
| InAwaitRefresh (originalRequest : Config) (status : option nat)
    (newToken : option string)
| Settled (o : Outcome).

Record AuthTokens := mkAuthTokens { access : string; refresh : string }.

Section TokenLifecycle.

(** [User] comes from [@/types]; [jwtDecode] is the [jwt-decode] package;
    [persistJSON] is the serialisation the [persist] middleware applies to
    the partialised state [{ user, isAuthenticated }]. *)
Variable User : Type.
Variable jwtDecode : string → completion Claims.
Variable persistJSON : option User → bool → string.

Record AuthState := mkAuthState {
  user : option User;
  tokens : option AuthTokens;
  isAuthenticated : bool;
  isLoading : bool
}.

(** ** The state of the page *)

Record World := mkWorld {
  localStorage : gmap string string;
  isRefreshing : bool;
  refreshSubscribers : list Callback;
  authStore : AuthState;
  location_href : string;
  tasks : gmap nat Task;
  trace : list Effect
}.

Definition with_localStorage (f : gmap string string → gmap string string)
    (w : World) : World :=
  mkWorld (f (localStorage w)) (isRefreshing w) (refreshSubscribers w)
    (authStore w) (location_href w) (tasks w) (trace w).

Definition with_isRefreshing (b : bool) (w : World) : World :=
  mkWorld (localStorage w) b (refreshSubscribers w)
    (authStore w) (location_href w) (tasks w) (trace w).

Definition with_refreshSubscribers (f : list Callback → list Callback)
    (w : World) : World :=
  mkWorld (localStorage w) (isRefreshing w) (f (refreshSubscribers w))
    (authStore w) (location_href w) (tasks w) (trace w).

Definition with_authStore (f : AuthState → AuthState) (w : World) : World :=
  mkWorld (localStorage w) (isRefreshing w) (refreshSubscribers w)
    (f (authStore w)) (location_href w) (tasks w) (trace w).

Definition with_location_href (h : string) (w : World) : World :=
  mkWorld (localStorage w) (isRefreshing w) (refreshSubscribers w)
    (authStore w) h (tasks w) (trace w).

Definition with_tasks (f : gmap nat Task → gmap nat Task) (w : World) : World :=
  mkWorld (localStorage w) (isRefreshing w) (refreshSubscribers w)
    (authStore w) (location_href w) (f (tasks w)) (trace w).

Definition with_trace (f : list Effect → list Effect) (w : World) : World :=
  mkWorld (localStorage w) (isRefreshing w) (refreshSubscribers w)
    (authStore w) (location_href w) (tasks w) (f (trace w)).

(** ** State and exceptions *)

Definition M (A : Type) : Type := World → World * completion A.

Definition ret {A} (a : A) : M A := λ w, (w, Normal a).

Definition bind {A B} (c : M A) (k : A → M B) : M B :=
  λ w, match c w with
       | (w', Normal a) => k a w'
       | (w', Throw) => (w', Throw)
       end.

Definition throw {A} : M A := λ w, (w, Throw).

(** [try { body } catch (error) { handler }] *)
Definition try_catch {A} (body handler : M A) : M A :=
  λ w, match body w with
       | (w', Throw) => handler w'
       | r => r
       end.

Definition gets {A} (f : World → A) : M A := λ w, (w, Normal (f w)).
Definition modify (f : World → World) : M unit := λ w, (f w, Normal tt).
Definition lift {A} (c : completion A) : M A := λ w, (w, c).

Notation "'let*' x := c 'in' k" := (bind c (λ x, k))
  (at level 10, x name, c at level 100, k at level 200).
Notation "c >> k" := (bind c (λ _, k))
  (at level 61, left associativity, only parsing).

Definition exec {A} (c : M A) (w : World) : World := fst (c w).

(** ** localStorage and the auth store *)

Definition getItem (key : string) : M (option string) :=
  gets (λ w, localStorage w !! key).
Definition setItem (key value : string) : M unit :=
  modify (with_localStorage (insert key value)).
Definition removeItem (key : string) : M unit :=
  modify (with_localStorage (delete key)).

Definition emit (e : Effect) : M unit := modify (with_trace (λ t, t ++ [e])).

(** [set(partial)] of the persisted store: merge, then write the
    partialised state under the key ['auth-storage']. *)
Definition set (f : AuthState → AuthState) : M unit :=
  modify (with_authStore f) >>
  let* st := gets authStore in
  setItem "auth-storage" (persistJSON (user st) (isAuthenticated st)).

Definition logout : M unit :=
  removeItem "access_token" >>
  removeItem "refresh_token" >>
  set (λ st, {| user := None; tokens := None; isAuthenticated := false;
                isLoading := isLoading st |}).

(** [window.location.href = href] *)
Definition navigate (href : string) : M unit :=
  modify (with_location_href href) >> emit (Navigate href).

(** ** The subscriber list *)

Definition subscribeTokenRefresh (callback : Callback) : M unit :=
  modify (with_refreshSubscribers (λ l, l ++ [callback])).

Definition setTask (id : nat) (t : Task) : M unit :=
  modify (with_tasks (insert id t)).

(** The adapter takes the config: the request is on the wire. *)
Definition dispatch (id : nat) (config : Config) : M unit :=
  emit (Transmit id config) >> setTask id (InFlight config).

(** Calling a subscriber: it writes the header and resolves the promise the
    request interceptor returned, which lets axios dispatch the config. *)
Definition invoke (token : string) (callback : Callback) : M unit :=
  emit (Invoke (cb_id callback) token) >>
  dispatch (cb_id callback) (set_Authorization token (cb_config callback)).

Fixpoint forEach {A} (l : list A) (f : A → M unit) : M unit :=
  match l with
  | [] => ret tt
  | x :: l => f x >> forEach l f
  end.

Definition onTokenRefreshed (token : string) : M unit :=
  let* subscribers := gets refreshSubscribers in
  forEach subscribers (invoke token) >>
  modify (with_refreshSubscribers (λ _, [])).

(** ** refreshToken *)

(** Up to [await axios.post(...)]: [Some refresh] when the POST went out
    with that body, [None] when the function returned [null] before. *)
Definition refreshToken_request : M (option string) :=
  try_catch
    (let* refresh := getItem "refresh_token" in
     if truthy refresh then
       match refresh with
       | Some refresh => emit (RefreshPost refresh) >> ret (Some refresh)
       | None => ret None
       end
     else ret None)
    (ret None).

(** From the settled POST on: [reply] is the [access] member of a 2xx
    response body, or a throw (network error, timeout, any other status). *)
Definition refreshToken_response (reply : completion string)
  : M (option string) :=
  try_catch
    (let* access := lift reply in
     setItem "access_token" access >>
     ret (Some access))
    (ret None).

(** The whole function against an endpoint that answers at once. *)
Definition refreshToken (endpoint : string → completion string)
  : M (option string) :=
  let* posted := refreshToken_request in
  match posted with
  | Some refresh => refreshToken_response (endpoint refresh)
  | None => ret None
  end.

(** ** Request interceptor *)

(** How the request interceptor leaves its first stretch: it returned a
    config, it waits for [refreshToken()], or it returned the promise a
    subscriber will resolve. *)
Inductive Pending :=
| Proceed (config : Config)
| AwaitRefresh (posted : option string)
| Parked.

(** From entry to the first [await], or to the [return]. *)
Definition requestInterceptor_enter (id : nat) (config : Config) (now : Z)
  : M Pending :=
  let* token := getItem "access_token" in
  if truthy token then
    match token with
    | Some token =>
        try_catch
          (let* decoded := lift (jwtDecode token) in
           let currentTime := seconds now in
           if js_lt (exp decoded) currentTime then
             let* refreshing := gets isRefreshing in
             if negb refreshing then
               modify (with_isRefreshing true) >>
               let* posted := refreshToken_request in
               ret (AwaitRefresh posted)
             else
               subscribeTokenRefresh (mkCallback id config) >>
               ret Parked
           else
             ret (Proceed (set_Authorization token config)))
          (emit ConsoleError >> ret (Proceed config))
    | None => ret (Proceed config)
    end
  else ret (Proceed config).

(** From [await refreshToken()] to [return config]. *)
Definition requestInterceptor_resume (config : Config)
    (newToken : option string) : M Config :=
  try_catch
    (modify (with_isRefreshing false) >>
     if truthy newToken then
       match newToken with
       | Some newToken =>
           onTokenRefreshed newToken >>
           ret (set_Authorization newToken config)
       | None => ret config
       end
     else
       logout >> navigate "/login" >> ret config)
    (emit ConsoleError >> ret config).

(** [apiClient(config)] up to the point where the request is on the wire
    or suspended. *)
Definition apiClient (id : nat) (config : Config) (now : Z) : M unit :=
  let* p := requestInterceptor_enter id config now in
  match p with
  | Proceed config => dispatch id config
  | AwaitRefresh (Some _) => setTask id (OutAwaitPost config)
  | AwaitRefresh None => setTask id (OutAwaitRefresh config None)
  | Parked => setTask id Subscribed
  end.

(** ** Response interceptor *)

Definition is401 (status : option nat) : bool :=
  match status with Some 401 => true | _ => false end.

Definition settle (id : nat) (o : Outcome) : M unit :=
  emit (Settle id o) >> setTask id (Settled o).

(** The error handler from entry to [await refreshToken()] or to
    [Promise.reject(error)]. *)
Definition responseInterceptor_enter (id : nat) (status : option nat)
    (originalRequest : Config) : M unit :=
  if is401 status && negb (_retry originalRequest) then
    let originalRequest := set_retry originalRequest in
    let* posted := refreshToken_request in
    match posted with
    | Some _ => setTask id (InAwaitPost originalRequest status)
    | None => setTask id (InAwaitRefresh originalRequest status None)
    end
  else settle id (Rejected status).

(** The error handler after [await refreshToken()].  The replay hands the
    marked config back to [apiClient]; axios keeps the members of a config
    it does not know, so the replayed request still carries [_retry]. *)
Definition responseInterceptor_resume (id : nat) (status : option nat)
    (originalRequest : Config) (newToken : option string) (now : Z) : M unit :=
  if truthy newToken then
    match newToken with
    | Some newToken =>
        let originalRequest := set_Authorization newToken originalRequest in
        emit (Replay id) >> apiClient id originalRequest now
    | None => settle id (Rejected status)
    end
  else
    logout >> navigate "/login" >> settle id (Rejected status).

(** ** The event loop *)

Inductive Event :=
| Issue (id : nat) (config : Config) (now : Z)
| PostReply (id : nat) (reply : completion string)
| Resume (id : nat) (now : Z)
| Response (id : nat) (reply : Reply).

(** One turn.  [Issue]: a caller hands a fresh request to [apiClient].
    [PostReply]: the POST that request [id] waits for settles.  [Resume]:
    the interceptor of request [id] continues after [await refreshToken()];
    [now] is the clock a replayed request reads.  [Response]: the transport
    answers request [id].  An event that no continuation waits for is not
    enabled. *)
Definition step (w : World) (e : Event) : option World :=
  match e with
  | Issue id config now =>
      match tasks w !! id with
      | None => Some (exec (apiClient id config now) w)
      | Some _ => None
      end
  | PostReply id reply =>
      match tasks w !! id with
      | Some (OutAwaitPost config) =>
          Some (exec (let* newToken := refreshToken_response reply in
                      setTask id (OutAwaitRefresh config newToken)) w)
      | Some (InAwaitPost config status) =>
          Some (exec (let* newToken := refreshToken_response reply in
                      setTask id (InAwaitRefresh config status newToken)) w)
      | _ => None
      end
  | Resume id now =>
      match tasks w !! id with
      | Some (OutAwaitRefresh config newToken) =>
          Some (exec (let* config := requestInterceptor_resume config newToken in
                      dispatch id config) w)
      | Some (InAwaitRefresh config status newToken) =>
          Some (exec (responseInterceptor_resume id status config newToken now) w)
      | _ => None
      end
  | Response id reply =>
      match tasks w !! id with
      | Some (InFlight config) =>
          match reply with
          | Success status => Some (exec (settle id (Fulfilled status)) w)
          | Failure status =>
              Some (exec (responseInterceptor_enter id status config) w)
          end
      | _ => None
      end
  end.

Fixpoint run (w : World) (es : list Event) : option World :=
  match es with
  | [] => Some w
  | e :: es =>
      match step w e with
      | Some w' => run w' es
      | None => None
      end
  end.

End TokenLifecycle.

Arguments mkAuthState {User} user tokens isAuthenticated isLoading.
Arguments user {User} a.
Arguments tokens {User} a.
Arguments isAuthenticated {User} a.
Arguments isLoading {User} a.
Arguments mkWorld {User} localStorage isRefreshing refreshSubscribers
  authStore location_href tasks trace.
Arguments localStorage {User} w.
Arguments isRefreshing {User} w.
Arguments refreshSubscribers {User} w.
Arguments authStore {User} w.
Arguments location_href {User} w.
Arguments tasks {User} w.
Arguments trace {User} w.
Arguments with_localStorage {User} f w.
Arguments with_isRefreshing {User} b w.
Arguments with_refreshSubscribers {User} f w.
Arguments with_authStore {User} f w.
Arguments with_location_href {User} h w.
Arguments with_tasks {User} f w.
Arguments with_trace {User} f w.
Arguments ret {User A} a w.
Arguments bind {User A B} c k w.
Arguments throw {User A} w.
Arguments try_catch {User A} body handler w.
Arguments gets {User A} f w.
Arguments modify {User} f w.
Arguments lift {User A} c w.
Arguments exec {User A} c w.
Arguments getItem {User} key w.
Arguments setItem {User} key value w.
Arguments removeItem {User} key w.
Arguments emit {User} e w.
Arguments set {User} persistJSON f w.
Arguments logout {User} persistJSON w.
Arguments navigate {User} href w.
Arguments subscribeTokenRefresh {User} callback w.
Arguments setTask {User} id t w.
Arguments dispatch {User} id config w.
Arguments invoke {User} token callback w.
Arguments forEach {User A} l f w.
Arguments onTokenRefreshed {User} token w.
Arguments refreshToken_request {User} w.
Arguments refreshToken_response {User} reply w.
Arguments refreshToken {User} endpoint w.
Arguments requestInterceptor_enter {User} jwtDecode id config now w.
Arguments requestInterceptor_resume {User} persistJSON config newToken w.
Arguments apiClient {User} jwtDecode id config now w.
Arguments settle {User} id o w.
Arguments responseInterceptor_enter {User} id status originalRequest w.
Arguments responseInterceptor_resume {User} jwtDecode persistJSON id status
  originalRequest newToken now w.
Arguments step {User} jwtDecode persistJSON w e.
Arguments run {User} jwtDecode persistJSON w es.

Notation "'let*' x := c 'in' k" := (bind c (λ x, k))
  (at level 10, x name, c at level 100, k at level 200).
Notation "c >> k" := (bind c (λ _, k))
  (at level 61, left associativity, only parsing).

(** ** Observations on the trace *)

(** The bodies of the POSTs to [/users/auth/refresh/], oldest first. *)
Definition refreshPosts (t : list Effect) : list string :=
  omap (λ e, match e with RefreshPost r => Some r | _ => None end) t.

(** The navigations, oldest first. *)
Definition redirects (t : list Effect) : list string :=
  omap (λ e, match e with Navigate h => Some h | _ => None end) t.

(** How often the response interceptor replayed request [id]. *)
Definition replays (id : nat) (t : list Effect) : nat :=
  length (omap (λ e, match e with
                     | Replay i => if decide (i = id) then Some i else None
                     | _ => None
                     end) t).

(** The configs of request [id] that went on the wire, oldest first. *)
Definition transmitted (id : nat) (t : list Effect) : list Config :=
  omap (λ e, match e with
             | Transmit i c => if decide (i = id) then Some c else None
             | _ => None
             end) t.

(** The request interceptor entered the renewal path: it started a renewal
    or it joined the subscriber list. *)
Definition entersRenewal (p : completion Pending) : Prop :=
  match p with
  | Normal (AwaitRefresh _) | Normal Parked => True
  | _ => False
  end.

(** What draining the subscribers with [token] adds to the trace. *)
Definition drained (token : string) (subscribers : list Callback)
  : list Effect :=
  flat_map (λ cb, [Invoke (cb_id cb) token;
                   Transmit (cb_id cb)
                     (set_Authorization token (cb_config cb))])
    subscribers.

(** What draining the subscribers with [token] does to the requests: each
    one is on the wire with the header written. *)
Definition drainTasks (token : string) (subscribers : list Callback)
    (m : gmap nat Task) : gmap nat Task :=
  foldl (λ m cb, <[cb_id cb :=
                     InFlight (set_Authorization token (cb_config cb))]> m)
    m subscribers.

(** A request as its caller issues it: id, config and the clock the
    request interceptor reads. *)
Definition issue (r : nat * Config * Z) : Event := Issue r.1.1 r.1.2 r.2.

(** The subscriber such a request leaves when it has to wait. *)
Definition waiter (r : nat * Config * Z) : Callback := mkCallback r.1.1 r.1.2.



(** Request [id] got an authorization rejection during [es]. *)
Definition rejected401 (id : nat) (es : list Event) : Prop :=
  Response id (Failure (Some 401)) ∈ es.

(** Request [id] is as its caller issued it: never rejected with 401 (as
    recorded by [R]), never replayed. *)
Definition untouched {User} (R : nat → Prop) (id : nat) (w : @World User)
  : Prop :=
  ¬ R id ∧ replays id (trace w) = 0.

(** What the [_retry] mark of a request says about its past. *)
Definition taskInvariant {User} (R : nat → Prop) (id : nat) (w : @World User)
    (t : option Task) : Prop :=
  match t with
  | None => untouched R id w
  | Some (InFlight c) | Some (OutAwaitPost c) | Some (OutAwaitRefresh c _) =>
      _retry c = false → untouched R id w
  | Some (InAwaitPost c _) | Some (InAwaitRefresh c _ _) =>
      _retry c = true ∧ replays id (trace w) = 0
  | Some Subscribed | Some (Settled _) => True
  end.

Definition retryInvariant {User} (R : nat → Prop) (w : @World User) : Prop :=
  ∀ id,
    replays id (trace w) ≤ 1 ∧
    taskInvariant R id w (tasks w !! id) ∧
    ∀ cb, cb ∈ refreshSubscribers w → cb_id cb = id →
      tasks w !! id = Some Subscribed ∧
      (_retry (cb_config cb) = false → untouched R id w).

(** ** A page to run the code on *)

Module Demo.

(** A decoder that knows two tokens: ["old"] expires at second 100 and
    ["new"] at second 9000; anything else does not decode. *)
Definition jwtDecode (token : string) : completion Claims :=
  if String.eqb token "old" then Normal (mkClaims (Some (100 # 1)%Q))
  else if String.eqb token "new" then Normal (mkClaims (Some (9000 # 1)%Q))
  else Throw.

Definition persistJSON (u : option string) (authenticated : bool) : string :=
  match u, authenticated with
  | Some u, true => u +:+ ",true"
  | Some u, false => u +:+ ",false"
  | None, true => "null,true"
  | None, false => "null,false"
  end.

Definition signedIn : @AuthState string :=
  mkAuthState (Some "ilya") (Some (mkAuthTokens "old" "r1")) true false.

(** A signed-in page holding the access token [accessToken]. *)
Definition page (accessToken : string) : @World string :=
  mkWorld (<["access_token" := accessToken]> (<["refresh_token" := "r1"]> ∅))
    false [] signedIn "/" ∅ [].

(** A page with no credentials. *)
Definition anonymous : @World string :=
  mkWorld ∅ false [] (mkAuthState None None false false) "/login" ∅ [].

Definition getCourts : Config := mkConfig "/courts/" "get" EmptyString ∅ false.
Definition getMatches : Config := mkConfig "/matches/" "get" EmptyString ∅ false.

Definition step := step jwtDecode persistJSON.
Definition run := run jwtDecode persistJSON.

(** The page after the events [es]. *)
Definition after (w : @World string) (es : list Event) : @World string :=
  default w (run w es).

(** Two requests go out while the stored token ["new"] is valid (second
    200 of the clock) and the server rejects both with 401. *)
Definition bothRejected : list Event :=
  [Issue 1 getCourts 200000; Issue 2 getMatches 200000;
   Response 1 (Failure (Some 401)); Response 2 (Failure (Some 401))].

(** ... and then both refresh exchanges fail. *)
Definition bothRejectedThenFail : list Event :=
  bothRejected ++
  [PostReply 1 Throw; PostReply 2 Throw; Resume 1 200050; Resume 2 200050].

(** Two requests are issued while the stored token ["old"] is expired: the
    first starts the renewal, the second subscribes. *)
Definition bothExpired : list Event :=
  [Issue 1 getCourts 200000; Issue 2 getMatches 200000].

(** One request is rejected with 401, the renewal succeeds, and the
    request is replayed. *)
Definition rejectedThenReplayed : list Event :=
  [Issue 1 getCourts 200000; Response 1 (Failure (Some 401));
   PostReply 1 (Normal "new"); Resume 1 200050].

End Demo.

(** * The actions of the auth store *)

Section AuthStore.

(** [AuthResponse] comes from [@/types]: it carries the two tokens, and the
    store keeps the whole response as its [user]. *)
Context {User : Type}.
Variable jwtDecode : string → completion Claims.
Variable persistJSON : option User → bool → string.
Variable AuthResponse : Type.
Variable response_access : AuthResponse → string.
Variable response_refresh : AuthResponse → string.
Variable response_user : AuthResponse → User.

(** [try { body } finally { finalizer }] *)
Definition try_finally {A} (body : M User A) (finalizer : M User unit)
  : M User A :=
  λ w, match body w with
       | (w1, r) =>
           match finalizer w1 with
           | (w2, Normal _) => (w2, r)
           | (w2, Throw) => (w2, Throw)
           end
       end.

(** [login]: up to [await authApi.login(...)]. *)
Definition login_begin : M User unit :=
  set persistJSON (λ st, mkAuthState (user st) (tokens st)
                           (isAuthenticated st) true).

(** [login]: from the settled call on; [reply] is the response body, or the
    error [apiClient] rejected with. *)
Definition login_settle (reply : completion AuthResponse) : M User unit :=
  try_finally
    (let* response := lift reply in
     setItem "access_token" (response_access response) >>
     setItem "refresh_token" (response_refresh response) >>
     set persistJSON
       (λ st, mkAuthState (Some (response_user response))
                (Some (mkAuthTokens (response_access response)
                         (response_refresh response)))
                true (isLoading st)))
    (set persistJSON (λ st, mkAuthState (user st) (tokens st)
                              (isAuthenticated st) false)).

Definition login (authApi_login : completion AuthResponse) : M User unit :=
  login_begin >> login_settle authApi_login.

Definition register_begin : M User unit :=
  set persistJSON (λ st, mkAuthState (user st) (tokens st)
                           (isAuthenticated st) true).

Definition register_settle (reply : completion AuthResponse) : M User unit :=
  try_finally
    (let* response := lift reply in
     setItem "access_token" (response_access response) >>
     setItem "refresh_token" (response_refresh response) >>
     set persistJSON
       (λ st, mkAuthState (Some (response_user response))
                (Some (mkAuthTokens (response_access response)
                         (response_refresh response)))
                true (isLoading st)))
    (set persistJSON (λ st, mkAuthState (user st) (tokens st)
                              (isAuthenticated st) false)).

Definition register (authApi_register : completion AuthResponse)
  : M User unit :=
  register_begin >> register_settle authApi_register.

Definition verifyPhone_begin : M User unit :=
  set persistJSON (λ st, mkAuthState (user st) (tokens st)
                           (isAuthenticated st) true).

Definition verifyPhone_settle (reply : completion AuthResponse)
  : M User unit :=
  try_finally
    (let* response := lift reply in
     setItem "access_token" (response_access response) >>
     setItem "refresh_token" (response_refresh response) >>
     set persistJSON
       (λ st, mkAuthState (Some (response_user response))
                (Some (mkAuthTokens (response_access response)
                         (response_refresh response)))
                true (isLoading st)))
    (set persistJSON (λ st, mkAuthState (user st) (tokens st)
                              (isAuthenticated st) false)).

Definition verifyPhone (authApi_verifyPhone : completion AuthResponse)
  : M User unit :=
  verifyPhone_begin >> verifyPhone_settle authApi_verifyPhone.

(** [setUser: (user) => set({ user, isAuthenticated: true })] *)
Definition setUser (u : User) : M User unit :=
  set persistJSON (λ st, mkAuthState (Some u) (tokens st) true (isLoading st)).

(** [updateUser] from the settled [authApi.updateMe(data)] on. *)
Definition updateUser_settle (reply : completion User) : M User unit :=
  let* updated := lift reply in
  set persistJSON (λ st, mkAuthState (Some updated) (tokens st)
                           (isAuthenticated st) (isLoading st)).

(** One uninterrupted stretch of a store action. *)
Inductive Action :=
| LoginBegin
| LoginSettle (reply : completion AuthResponse)
| RegisterBegin
| RegisterSettle (reply : completion AuthResponse)
| VerifyPhoneBegin
| VerifyPhoneSettle (reply : completion AuthResponse)
| LogoutNow
| SetUser (u : User)
| UpdateUserSettle (reply : completion User).

Definition act (a : Action) : M User unit :=
  match a with
  | LoginBegin => login_begin
  | LoginSettle reply => login_settle reply
  | RegisterBegin => register_begin
  | RegisterSettle reply => register_settle reply
  | VerifyPhoneBegin => verifyPhone_begin
  | VerifyPhoneSettle reply => verifyPhone_settle reply
  | LogoutNow => logout persistJSON
  | SetUser u => setUser u
  | UpdateUserSettle reply => updateUser_settle reply
  end.

(** A turn of the page: an event of the request pipeline, or a stretch of a
    store action. *)
Inductive Move :=
| Loop (e : Event)
| Store (a : Action).

Definition move (w : @World User) (m : Move) : option (@World User) :=
  match m with
  | Loop e => step jwtDecode persistJSON w e
  | Store a => Some (exec (act a) w)
  end.

Fixpoint session (w : @World User) (ms : list Move) : option (@World User) :=
  match ms with
  | [] => Some w
  | m :: ms =>
      match move w m with
      | Some w' => session w' ms
      | None => None
      end
  end.

(** The store says "authenticated" only with a user, and holds tokens only
    when authenticated. *)
Definition coherent (st : @AuthState User) : Prop :=
  (isAuthenticated st = true → is_Some (user st)) ∧
  (is_Some (tokens st) → isAuthenticated st = true).

(** The copy under ['auth-storage'] is the partialised store. *)
Definition persisted (w : @World User) : Prop :=
  localStorage w !! "auth-storage"
  = Some (persistJSON (user (authStore w)) (isAuthenticated (authStore w))).

End AuthStore.

Arguments LoginBegin {User AuthResponse}.
Arguments LoginSettle {User AuthResponse} reply.
Arguments RegisterBegin {User AuthResponse}.
Arguments RegisterSettle {User AuthResponse} reply.
Arguments VerifyPhoneBegin {User AuthResponse}.
Arguments VerifyPhoneSettle {User AuthResponse} reply.
Arguments LogoutNow {User AuthResponse}.
Arguments SetUser {User AuthResponse} u.
Arguments UpdateUserSettle {User AuthResponse} reply.
Arguments Loop {User AuthResponse} e.
Arguments Store {User AuthResponse} a.

(** * The turns of the event loop, spelled out *)

Section Shapes.

Context {User : Type}.
Variable persistJSON : option User → bool → string.

(** Session teardown as both interceptors write it. *)
Definition teardown : M User unit :=
  logout persistJSON >> navigate "/login".

(** The world with request [id] put on the wire with [config]. *)
Definition onWire (id : nat) (config : Config) (w : @World User)
  : @World User :=
  with_tasks (insert id (InFlight config))
    (with_trace (λ t, t ++ [Transmit id config]) w).

(** The world with the promise of request [id] settled. *)
Definition settled (id : nat) (o : Outcome) (w : @World User) : @World User :=
  with_tasks (insert id (Settled o))
    (with_trace (λ t, t ++ [Settle id o]) w).

(** What [apiClient id config] can make of a world. *)
Inductive Enter (id : nat) (config : Config) (w : @World User)
  : @World User → Prop :=
| enter_plain :
    truthy (localStorage w !! "access_token") = false →
    Enter id config w (onWire id config w)
| enter_undecoded :
    Enter id config w
      (onWire id config (with_trace (λ t, t ++ [ConsoleError]) w))
| enter_bearer token :
    localStorage w !! "access_token" = Some token →
    Enter id config w (onWire id (set_Authorization token config) w)
| enter_subscribe :
    isRefreshing w = true →
    Enter id config w
      (with_tasks (insert id Subscribed)
         (with_refreshSubscribers (λ l, l ++ [mkCallback id config]) w))
| enter_renew_post refresh :
    isRefreshing w = false →
    localStorage w !! "refresh_token" = Some refresh →
    Enter id config w
      (with_tasks (insert id (OutAwaitPost config))
         (with_trace (λ t, t ++ [RefreshPost refresh])
            (with_isRefreshing true w)))
| enter_renew_null :
    isRefreshing w = false →
    truthy (localStorage w !! "refresh_token") = false →
    Enter id config w
      (with_tasks (insert id (OutAwaitRefresh config None))
         (with_isRefreshing true w)).

(** What one event can make of a world. *)
Inductive Turn (w : @World User) : Event → @World User → Prop :=
| turn_issue id config now w' :
    tasks w !! id = None →
    Enter id config w w' →
    Turn w (Issue id config now) w'
| turn_post_out id config a :
    tasks w !! id = Some (OutAwaitPost config) →
    Turn w (PostReply id (Normal a))
      (with_tasks (insert id (OutAwaitRefresh config (Some a)))
         (with_localStorage (insert "access_token" a) w))
| turn_post_out_throw id config :
    tasks w !! id = Some (OutAwaitPost config) →
    Turn w (PostReply id Throw)
      (with_tasks (insert id (OutAwaitRefresh config None)) w)
| turn_post_in id config status a :
    tasks w !! id = Some (InAwaitPost config status) →
    Turn w (PostReply id (Normal a))
      (with_tasks (insert id (InAwaitRefresh config status (Some a)))
         (with_localStorage (insert "access_token" a) w))
| turn_post_in_throw id config status :
    tasks w !! id = Some (InAwaitPost config status) →
    Turn w (PostReply id Throw)
      (with_tasks (insert id (InAwaitRefresh config status None)) w)
| turn_resume_out id config token now :
    tasks w !! id = Some (OutAwaitRefresh config (Some token)) →
    token ≠ EmptyString →
    Turn w (Resume id now)
      (onWire id (set_Authorization token config)
         (with_refreshSubscribers (λ _, [])
            (with_tasks (drainTasks token (refreshSubscribers w))
               (with_trace (λ t, t ++ drained token (refreshSubscribers w))
                  (with_isRefreshing false w)))))
| turn_resume_out_null id config newToken now :
    tasks w !! id = Some (OutAwaitRefresh config newToken) →
    truthy newToken = false →
    Turn w (Resume id now)
      (onWire id config (exec teardown (with_isRefreshing false w)))
| turn_resume_in id config status token now w' :
    tasks w !! id = Some (InAwaitRefresh config status (Some token)) →
    token ≠ EmptyString →
    Enter id (set_Authorization token config)
      (with_trace (λ t, t ++ [Replay id]) w) w' →
    Turn w (Resume id now) w'
| turn_resume_in_null id config status newToken now :
    tasks w !! id = Some (InAwaitRefresh config status newToken) →
    truthy newToken = false →
    Turn w (Resume id now) (settled id (Rejected status) (exec teardown w))
| turn_response id config status :
    tasks w !! id = Some (InFlight config) →
    Turn w (Response id (Success status)) (settled id (Fulfilled status) w)
| turn_reject id config status :
    tasks w !! id = Some (InFlight config) →
    is401 status && negb (_retry config) = false →
    Turn w (Response id (Failure status)) (settled id (Rejected status) w)
| turn_renew_post id config status refresh :
    tasks w !! id = Some (InFlight config) →
    is401 status = true → _retry config = false →
    localStorage w !! "refresh_token" = Some refresh →
    Turn w (Response id (Failure status))
      (with_tasks (insert id (InAwaitPost (set_retry config) status))
         (with_trace (λ t, t ++ [RefreshPost refresh]) w))
| turn_renew_null id config status :
    tasks w !! id = Some (InFlight config) →
    is401 status = true → _retry config = false →
    truthy (localStorage w !! "refresh_token") = false →
    Turn w (Response id (Failure status))
      (with_tasks (insert id (InAwaitRefresh (set_retry config) status None))
         w).

End Shapes.

(** ** More observations *)

(** A renewal started by the request interceptor is pending for this
    request. *)
Definition renewing (t : option Task) : Prop :=
  match t with
  | Some (OutAwaitPost _) | Some (OutAwaitRefresh _ _) => True
  | _ => False
  end.

(** Two configs are the same request: they agree on everything but the
    [Authorization] header and the [_retry] mark. *)
Definition sameRequest (c c' : Config) : Prop :=
  url c' = url c ∧ method c' = method c ∧ data c' = data c ∧
  ∀ k, k ≠ "Authorization" → headers c' !! k = headers c !! k.

(** The config a request in progress carries. *)
Definition configOf (t : option Task) : option Config :=
  match t with
  | Some (OutAwaitPost c) | Some (OutAwaitRefresh c _) | Some (InFlight c)
  | Some (InAwaitPost c _) | Some (InAwaitRefresh c _ _) => Some c
  | _ => None
  end.

(** Every config in the world is the request its id was issued with. *)
Definition requestsKept {User} (origin : nat → Config) (w : @World User)
  : Prop :=
  (∀ id c, configOf (tasks w !! id) = Some c → sameRequest (origin id) c) ∧
  (∀ cb, cb ∈ refreshSubscribers w →
         sameRequest (origin (cb_id cb)) (cb_config cb)) ∧
  (∀ id c, Transmit id c ∈ trace w → sameRequest (origin id) c).

(** How often request [id] went on the wire. *)
Definition sent (id : nat) (t : list Effect) : nat :=
  length (transmitted id t).

(** The request is off the wire and has yet to be sent (again). *)
Definition unsent (t : option Task) : bool :=
  match t with
  | None | Some (OutAwaitPost _) | Some (OutAwaitRefresh _ _)
  | Some Subscribed => true
  | _ => false
  end.

(** Transmissions follow replays: a request that waits to be sent was sent
    once per replay, any other once more; the subscriber list holds one
    callback per suspended request. *)
Definition wireInvariant {User} (w : @World User) : Prop :=
  (∀ id, if unsent (tasks w !! id)
         then sent id (trace w) = replays id (trace w)
         else sent id (trace w) = S (replays id (trace w))) ∧
  (∀ cb, cb ∈ refreshSubscribers w → tasks w !! cb_id cb = Some Subscribed) ∧
  NoDup (map cb_id (refreshSubscribers w)).

(** The flag is raised exactly while a renewal of the request interceptor
    is pending, and there is never more than one. *)
Definition renewalInvariant {User} (w : @World User) : Prop :=
  (isRefreshing w = true → ∃ id, renewing (tasks w !! id)) ∧
  (∀ i, renewing (tasks w !! i) →
        isRefreshing w = true ∧ ∀ j, renewing (tasks w !! j) → j = i).

(** The stored refresh token is the value [v] or gone, and every POST so
    far carried [v]. *)
Definition refreshTokenKept {User} (v : option string) (w : @World User)
  : Prop :=
  (localStorage w !! "refresh_token" = v ∨
   localStorage w !! "refresh_token" = None) ∧
  ∀ r, r ∈ refreshPosts (trace w) → v = Some r.

(** ** An account to sign in with *)

Module Account.

(** The response body of the three sign-in endpoints, for a user that is
    just a name. *)
Record AuthResponse := mkAuthResponse {
  resp_access : string;
  resp_refresh : string;
  resp_name : string
}.

Definition granted : AuthResponse := mkAuthResponse "new" "r2" "ilya".

Definition login_settle :=
  login_settle Demo.persistJSON AuthResponse resp_access resp_refresh
    resp_name.

Definition session :=
  session Demo.jwtDecode Demo.persistJSON AuthResponse resp_access
    resp_refresh resp_name.

(** Sign in, fetch with the fresh token, get rejected, fail to renew. *)
Definition evening : list (@Move string AuthResponse) :=
  [Store LoginBegin; Store (LoginSettle (Normal granted));
   Loop (Issue 1 Demo.getCourts 200000);
   Loop (Response 1 (Failure (Some 401)));
   Loop (PostReply 1 Throw); Loop (Resume 1 200050)].

(** The anonymous page once the store has written its copy. *)
Definition loggedOut : @World string :=
  exec (logout Demo.persistJSON) Demo.anonymous.

(** The page after the moves [ms]. *)
Definition after (w : @World string) (ms : list (@Move string AuthResponse))
  : @World string :=
  default w (session w ms).

End Account.

(** The [Authorization] header of [c] is the one of [o], or the bearer of a
    token in [known]. *)
Definition genuineHeader (known : string → Prop) (o c : Config) : Prop :=
  headers c !! "Authorization" = headers o !! "Authorization" ∨
  ∃ t, known t ∧ headers c !! "Authorization" = Some (Bearer t).

(** The token a settled renewal holds for the interceptor that waits. *)
Definition tokenOf (t : option Task) : option string :=
  match t with
  | Some (OutAwaitRefresh _ (Some a)) | Some (InAwaitRefresh _ _ (Some a)) =>
      Some a
  | _ => None
  end.

(** Every token in the world is in [known], and every config carries the
    header its request came with or the bearer of a token in [known]. *)
Definition tokensGenuine {User} (known : string → Prop) (origin : nat → Config)
    (w : @World User) : Prop :=
  (∀ a, localStorage w !! "access_token" = Some a → known a) ∧
  (∀ id a, tokenOf (tasks w !! id) = Some a → known a) ∧
  (∀ id c, configOf (tasks w !! id) = Some c →
           genuineHeader known (origin id) c) ∧
  (∀ cb, cb ∈ refreshSubscribers w →
         genuineHeader known (origin (cb_id cb)) (cb_config cb)) ∧
  (∀ id c, Transmit id c ∈ trace w → genuineHeader known (origin id) c) ∧
  (∀ id a, Invoke id a ∈ trace w → known a).

(** The outcomes the promise of request [id] was settled with, oldest
    first. *)
Definition outcomes (id : nat) (t : list Effect) : list Outcome :=
  omap (λ e, match e with
             | Settle i o => if decide (i = id) then Some o else None
             | _ => None
             end) t.

(** The outcome a task records. *)
Definition outcomeOf (t : option Task) : list Outcome :=
  match t with
  | Some (Settled o) => [o]
  | _ => []
  end.

(** The trace holds one [Settle] for each settled request, with the outcome
    the task records, and none for the others. *)
Definition settleInvariant {User} (w : @World User) : Prop :=
  wireInvariant w ∧
  ∀ id, outcomes id (trace w) = outcomeOf (tasks w !! id).

(** * Persian text ([utils/persian.ts]) *)

(** A JavaScript string is a sequence of UTF-16 code units. *)
Module Persian.

(** [['۰', '۱', '۲', '۳', '۴', '۵', '۶', '۷', '۸', '۹']], one code unit
    each. *)
Definition persianDigits : list N :=
  [1776; 1777; 1778; 1779; 1780; 1781; 1782; 1783; 1784; 1785]%N.

(** What [\d] matches: the ASCII digits ['0'] to ['9']. *)
Definition isDigit (u : N) : bool := ((48 <=? u) && (u <=? 57))%N.

(** [(w) => persianDigits[+w]] on a matched digit. *)
Definition replaceDigit (u : N) : N :=
  match persianDigits !! N.to_nat (u - 48) with
  | Some d => d
  | None => u
  end.

(** [toPersianNumber] on a string: [.replace(/\d/g, ...)] rewrites every
    ASCII digit and keeps every other code unit. *)
Definition toPersianNumber (s : list N) : list N :=
  map (λ u, if isDigit u then replaceDigit u else u) s.

(** [num.toString()] for a non-negative integer: its decimal digits. *)
Fixpoint digitsOf (fuel : nat) (n : N) (acc : list N) : list N :=
  match fuel with
  | 0 => acc
  | S fuel =>
      let acc := (48 + n mod 10)%N :: acc in
      if (n / 10 =? 0)%N then acc else digitsOf fuel (n / 10)%N acc
  end.

Definition toString (n : N) : list N := digitsOf (S (N.size_nat n)) n [].



(** The Persian digit of a value below ten. *)
Definition isPersianDigit (u : N) : bool := ((1776 <=? u) && (u <=? 1785))%N.

End Persian.

(** * The UI store ([store/uiStore.ts]) *)

Section UIStore.

(** [Toast['type']], [React.ReactNode] and the members of [Notification]
    the store does not look at come from elsewhere. *)
Variable ToastType : Type.
Variable ReactNode : Type.
Variable Details : Type.

Record Toast := mkToast {
  toast_id : string;
  toast_type : ToastType;
  toast_message : string
}.

Record Notification := mkNotification {
  notification_id : string;
  created_at : string;
  read : bool;
  details : Details
}.

Record UIState := mkUIState {
  toasts : list Toast;
  notifications : list Notification;
  unreadCount : Z;
  globalLoading : bool;
  bottomSheetOpen : bool;
  bottomSheetContent : option ReactNode
}.

(** [addToast]: [id] is the value [Math.random().toString(36).substring(7)]
    took; the timer it sets calls [removeToast id] four seconds later. *)
Definition addToast (id : string) (type : ToastType) (message : string)
    (state : UIState) : UIState :=
  mkUIState (toasts state ++ [mkToast id type message])
    (notifications state) (unreadCount state) (globalLoading state)
    (bottomSheetOpen state) (bottomSheetContent state).

Definition removeToast (id : string) (state : UIState) : UIState :=
  mkUIState
    (List.filter (λ t, negb (String.eqb (toast_id t) id)) (toasts state))
    (notifications state) (unreadCount state) (globalLoading state)
    (bottomSheetOpen state) (bottomSheetContent state).

(** [addNotification]: [id] and [now] are the values the random id and
    [new Date().toISOString()] took; the caller gives the other members. *)
Definition addNotification (id now : string) (isRead : bool)
    (rest : Details) (state : UIState) : UIState :=
  mkUIState (toasts state)
    (mkNotification id now isRead rest :: notifications state)
    (unreadCount state + 1)%Z (globalLoading state)
    (bottomSheetOpen state) (bottomSheetContent state).

Definition markAsRead (id : string) (state : UIState) : UIState :=
  mkUIState (toasts state)
    (map (λ n, if String.eqb (notification_id n) id
               then mkNotification (notification_id n) (created_at n) true
                      (details n)
               else n)
       (notifications state))
    (Z.max 0 (unreadCount state - 1)) (globalLoading state)
    (bottomSheetOpen state) (bottomSheetContent state).

Definition markAllAsRead (state : UIState) : UIState :=
  mkUIState (toasts state)
    (map (λ n, mkNotification (notification_id n) (created_at n) true
                 (details n))
       (notifications state))
    0%Z (globalLoading state)
    (bottomSheetOpen state) (bottomSheetContent state).

Definition setGlobalLoading (loading : bool) (state : UIState) : UIState :=
  mkUIState (toasts state) (notifications state) (unreadCount state) loading
    (bottomSheetOpen state) (bottomSheetContent state).

Definition openBottomSheet (content : ReactNode) (state : UIState)
  : UIState :=
  mkUIState (toasts state) (notifications state) (unreadCount state)
    (globalLoading state) true (Some content).

Definition closeBottomSheet (state : UIState) : UIState :=
  mkUIState (toasts state) (notifications state) (unreadCount state)
    (globalLoading state) false None.

(** A call of one action of the store. *)
Inductive UIAction :=
| AddToast (id : string) (type : ToastType) (message : string)
| RemoveToast (id : string)
| AddNotification (id now : string) (isRead : bool) (rest : Details)
| MarkAsRead (id : string)
| MarkAllAsRead
| SetGlobalLoading (loading : bool)
| OpenBottomSheet (content : ReactNode)
| CloseBottomSheet.

Definition perform (state : UIState) (a : UIAction) : UIState :=
  match a with
  | AddToast id type message => addToast id type message state
  | RemoveToast id => removeToast id state
  | AddNotification id now isRead rest =>
      addNotification id now isRead rest state
  | MarkAsRead id => markAsRead id state
  | MarkAllAsRead => markAllAsRead state
  | SetGlobalLoading loading => setGlobalLoading loading state
  | OpenBottomSheet content => openBottomSheet content state
  | CloseBottomSheet => closeBottomSheet state
  end.

(** The initial state of the store. *)
Definition initialUI : UIState := mkUIState [] [] 0%Z false false None.

End UIStore.

Arguments mkToast {ToastType} toast_id toast_type toast_message.
Arguments toast_id {ToastType} t.
Arguments mkNotification {Details} notification_id created_at read details.
Arguments notification_id {Details} n.
Arguments read {Details} n.
Arguments created_at {Details} n.
Arguments details {Details} n.
Arguments toasts {ToastType ReactNode Details} u.
Arguments notifications {ToastType ReactNode Details} u.
Arguments unreadCount {ToastType ReactNode Details} u.
Arguments addToast {ToastType ReactNode Details} id type message state.
Arguments removeToast {ToastType ReactNode Details} id state.
Arguments addNotification {ToastType ReactNode Details} id now isRead rest
  state.
Arguments markAsRead {ToastType ReactNode Details} id state.
Arguments markAllAsRead {ToastType ReactNode Details} state.
Arguments perform {ToastType ReactNode Details} state a.
Arguments initialUI {ToastType ReactNode Details}.
Arguments AddToast {ToastType ReactNode Details} id type message.
Arguments RemoveToast {ToastType ReactNode Details} id.
Arguments AddNotification {ToastType ReactNode Details} id now isRead rest.
Arguments MarkAsRead {ToastType ReactNode Details} id.
Arguments MarkAllAsRead {ToastType ReactNode Details}.
Arguments SetGlobalLoading {ToastType ReactNode Details} loading.
Arguments OpenBottomSheet {ToastType ReactNode Details} content.
Arguments CloseBottomSheet {ToastType ReactNode Details}.

(** * Properties *)

Section Properties.

Context {User : Type}.
Variable jwtDecode : string → completion Claims.
Variable persistJSON : option User → bool → string.

Implicit Types (w : @World User) (config : Config) (token : string).

(** Unfolds the straight-line code down to the state transformers. *)
Ltac straight :=
  cbv [step apiClient requestInterceptor_enter requestInterceptor_resume
       responseInterceptor_enter responseInterceptor_resume
       refreshToken refreshToken_request refreshToken_response
       logout set navigate settle dispatch subscribeTokenRefresh setTask
       getItem setItem removeItem emit
       bind ret gets modify lift throw try_catch exec].

Lemma truthy_Some token :
  token ≠ EmptyString → truthy (Some token) = true.
Proof.
  intros Hne. destruct token as [|a s]; [congruence | reflexivity].
Qed.

Lemma truthy_true (s : option string) :
  truthy s = true → ∃ token, s = Some token ∧ token ≠ EmptyString.
Proof.
  destruct s as [[|a s]|]; simpl; try discriminate.
  intros _. eexists. split; [reflexivity | discriminate].
Qed.

(** ** The credential store after [logout] *)

(** C10: after [logout] both credential keys are absent from localStorage
    and the in-memory auth state is reset: [user] and [tokens] are null and
    [isAuthenticated] is false; the persisted copy of the store holds the
    reset state too, and [logout] returns normally. *)
Theorem logout_leaves_no_credentials w :
  logout persistJSON w = (exec (logout persistJSON) w, Normal tt) ∧
  localStorage (exec (logout persistJSON) w) !! "access_token" = None ∧
  localStorage (exec (logout persistJSON) w) !! "refresh_token" = None ∧
  user (authStore (exec (logout persistJSON) w)) = None ∧
  tokens (authStore (exec (logout persistJSON) w)) = None ∧
  isAuthenticated (authStore (exec (logout persistJSON) w)) = false ∧
  localStorage (exec (logout persistJSON) w) !! "auth-storage"
    = Some (persistJSON None false).
Proof.
  straight. cbn.
  repeat split; by simplify_map_eq.
Qed.

(** ** refreshToken *)

Lemma refreshToken_request_absent w :
  truthy (localStorage w !! "refresh_token") = false →
  refreshToken_request w = (w, Normal None).
Proof.
  intros Hf. straight. cbn. rewrite Hf. reflexivity.
Qed.

Lemma refreshToken_request_present w refresh :
  localStorage w !! "refresh_token" = Some refresh →
  refresh ≠ EmptyString →
  refreshToken_request w
    = (with_trace (λ t, t ++ [RefreshPost refresh]) w, Normal (Some refresh)).
Proof.
  intros Hl Hne. straight. cbn. rewrite Hl, (truthy_Some _ Hne). reflexivity.
Qed.


(** ** The request interceptor *)

(** C8: with no access token in the store the request interceptor returns
    the config it received, unchanged, and changes nothing else: no header
    is written, no renewal starts, no POST goes out; [apiClient] then puts
    that very config on the wire. *)
Theorem missing_credential_pass_through w id config now :
  localStorage w !! "access_token" = None →
  requestInterceptor_enter jwtDecode id config now w
    = (w, Normal (Proceed config)) ∧
  exec (apiClient jwtDecode id config now) w
    = with_tasks (insert id (InFlight config))
        (with_trace (λ t, t ++ [Transmit id config]) w).
Proof.
  intros Hl. straight. cbn. rewrite Hl. cbn. done.
Qed.

(** C4, as the code has it: a stored access token that does not decode is
    reported on the console and the request passes through with the config
    unchanged; the token is not attached, and no renewal starts. *)
Theorem decode_failure_passes_through w id config now token :
  localStorage w !! "access_token" = Some token →
  token ≠ EmptyString →
  jwtDecode token = Throw →
  requestInterceptor_enter jwtDecode id config now w
    = (with_trace (λ t, t ++ [ConsoleError]) w, Normal (Proceed config)) ∧
  ¬ entersRenewal (snd (requestInterceptor_enter jwtDecode id config now w)).
Proof.
  intros Hl Hne Hd.
  assert (requestInterceptor_enter jwtDecode id config now w
    = (with_trace (λ t, t ++ [ConsoleError]) w, Normal (Proceed config))) as ->.
  { straight. cbn. rewrite Hl, (truthy_Some _ Hne), Hd. reflexivity. }
  split; [reflexivity | intros []].
Qed.

(** The request interceptor on a stored token that decodes. *)
Lemma enter_decoded w id config now token (e : Q) :
  localStorage w !! "access_token" = Some token →
  token ≠ EmptyString →
  jwtDecode token = Normal (mkClaims (Some e)) →
  requestInterceptor_enter jwtDecode id config now w
  = if js_lt (Some e) (seconds now) then
      if negb (isRefreshing w) then
        (let* posted := refreshToken_request in ret (AwaitRefresh posted))
          (with_isRefreshing true w)
      else (with_refreshSubscribers (λ l, l ++ [mkCallback id config]) w,
            Normal Parked)
    else (w, Normal (Proceed (set_Authorization token config))).
Proof.
  intros Hl Hne Hd. straight. cbn -[js_lt].
  rewrite Hl, (truthy_Some _ Hne), Hd. cbn -[js_lt].
  destruct (js_lt (Some e) (seconds now)); [|reflexivity].
  destruct (isRefreshing w); cbn; [reflexivity|].
  destruct (truthy (localStorage w !! "refresh_token"));
    [destruct (localStorage w !! "refresh_token")|]; reflexivity.
Qed.

Lemma js_lt_Qlt (e now : Q) : js_lt (Some e) now = true ↔ (e < now)%Q.
Proof.
  unfold js_lt. rewrite Qlt_alt.
  destruct (e ?= now)%Q; split; congruence.
Qed.


Lemma forEach_invoke token (l : list Callback) w :
  forEach l (invoke token) w
    = (with_tasks (drainTasks token l)
         (with_trace (λ t, t ++ drained token l) w), Normal tt).
Proof.
  revert w. induction l as [|cb l IH]; intros w.
  - destruct w. cbv [forEach ret with_tasks with_trace drained drainTasks].
    cbn. by rewrite app_nil_r.
  - cbn [forEach]. unfold bind at 1.
    cbv [invoke dispatch emit setTask bind modify]. rewrite IH.
    destruct w. cbv [with_tasks with_trace]. cbn.
    by rewrite <- !app_assoc.
Qed.

Lemma onTokenRefreshed_drains token w :
  onTokenRefreshed token w
    = (with_refreshSubscribers (λ _, [])
         (with_tasks (drainTasks token (refreshSubscribers w))
            (with_trace (λ t, t ++ drained token (refreshSubscribers w)) w)),
       Normal tt).
Proof.
  unfold onTokenRefreshed. cbv [bind gets]. rewrite forEach_invoke.
  reflexivity.
Qed.

(** The continuation of the request interceptor after a renewal that
    delivered a token. *)
Lemma resume_renewed w id config token now :
  tasks w !! id = Some (OutAwaitRefresh config (Some token)) →
  token ≠ EmptyString →
  step jwtDecode persistJSON w (Resume id now)
    = Some (with_tasks (insert id (InFlight (set_Authorization token config)))
        (with_trace (λ t, t ++ [Transmit id (set_Authorization token config)])
          (with_refreshSubscribers (λ _, [])
            (with_tasks (drainTasks token (refreshSubscribers w))
              (with_trace (λ t, t ++ drained token (refreshSubscribers w))
                (with_isRefreshing false w)))))).
Proof.
  intros Ht Hne. cbv [step]. rewrite Ht. f_equal.
  cbv [exec bind requestInterceptor_resume try_catch modify].
  rewrite (truthy_Some _ Hne). cbv [bind]. rewrite onTokenRefreshed_drains.
  reflexivity.
Qed.

(** The continuation of the request interceptor after a renewal that
    delivered no token. *)
Lemma resume_not_renewed w id config newToken now :
  tasks w !! id = Some (OutAwaitRefresh config newToken) →
  truthy newToken = false →
  step jwtDecode persistJSON w (Resume id now)
    = Some (exec (modify (with_isRefreshing false) >> logout persistJSON >>
                  navigate "/login" >> dispatch id config) w).
Proof.
  intros Ht Hf. cbv [step]. rewrite Ht. f_equal.
  cbv [exec bind requestInterceptor_resume try_catch modify].
  rewrite Hf. reflexivity.
Qed.

Lemma teardown_turn w id config newToken now :
  tasks w !! id = Some (OutAwaitRefresh config newToken) →
  truthy newToken = false →
  ∃ w', step jwtDecode persistJSON w (Resume id now) = Some w' ∧
    trace w' = trace w ++ [Navigate "/login"; Transmit id config] ∧
    tasks w' = <[id := InFlight config]> (tasks w) ∧
    localStorage w' !! "access_token" = None ∧
    localStorage w' !! "refresh_token" = None ∧
    location_href w' = "/login" ∧
    isRefreshing w' = false ∧
    refreshSubscribers w' = refreshSubscribers w.
Proof.
  intros Ht Hf. eexists. split; [by eapply resume_not_renewed|].
  straight. cbn. rewrite <- app_assoc.
  repeat split; by simplify_map_eq.
Qed.

(** The same teardown in the response interceptor: the renewal it started
    for a rejected request delivered no token. *)
Lemma inbound_teardown_turn w id config status newToken now :
  tasks w !! id = Some (InAwaitRefresh config status newToken) →
  truthy newToken = false →
  ∃ w', step jwtDecode persistJSON w (Resume id now) = Some w' ∧
    trace w' = trace w ++ [Navigate "/login"; Settle id (Rejected status)] ∧
    tasks w' = <[id := Settled (Rejected status)]> (tasks w) ∧
    localStorage w' !! "access_token" = None ∧
    localStorage w' !! "refresh_token" = None ∧
    location_href w' = "/login".
Proof.
  intros Ht Hf. eexists. split.
  { cbv [step]. rewrite Ht. cbv [responseInterceptor_resume]. rewrite Hf.
    reflexivity. }
  straight. cbn. rewrite <- app_assoc.
  repeat split; by simplify_map_eq.
Qed.

(** C7, as the code has it: when the renewal the request interceptor
    started settles with no token, the interceptor lowers the flag, tears
    the session down (both credential keys removed, navigation to
    [/login]) and then returns the config, so the request goes on the wire
    with the config as it was: no header is written.  The subscribers stay
    on the list and are not sent. *)
Theorem renewal_failure_still_sends w id config newToken now :
  tasks w !! id = Some (OutAwaitRefresh config newToken) →
  truthy newToken = false →
  ∃ w', step jwtDecode persistJSON w (Resume id now) = Some w' ∧
    trace w' = trace w ++ [Navigate "/login"; Transmit id config] ∧
    tasks w' = <[id := InFlight config]> (tasks w) ∧
    localStorage w' !! "access_token" = None ∧
    localStorage w' !! "refresh_token" = None ∧
    location_href w' = "/login" ∧
    isRefreshing w' = false ∧
    refreshSubscribers w' = refreshSubscribers w.
Proof.
  intros Ht Hf.
  rewrite (resume_not_renewed w id config newToken now Ht Hf).
  eexists. split; [reflexivity|].
  straight. cbn. rewrite <- app_assoc.
  repeat split; by simplify_map_eq.
Qed.


(** ** What one call of [apiClient] can do *)

Lemma replays_app id (t l : list Effect) :
  replays id (t ++ l) = replays id t + replays id l.
Proof. unfold replays. by rewrite omap_app, length_app. Qed.

Lemma refreshToken_request_cases w :
  refreshToken_request w = (w, Normal None) ∨
  ∃ refresh, refreshToken_request w
    = (with_trace (λ t, t ++ [RefreshPost refresh]) w, Normal (Some refresh)).
Proof.
  destruct (truthy (localStorage w !! "refresh_token")) eqn:Ht.
  - apply truthy_true in Ht as (refresh & Hl & Hne).
    right. exists refresh. by apply refreshToken_request_present.
  - left. by apply refreshToken_request_absent.
Qed.

(** [apiClient] never touches the store; it leaves request [id] on the
    wire, waiting for the renewal it started, or on the subscriber list. *)
Lemma apiClient_cases w id config now :
  ∃ extra t,
    let w' := exec (apiClient jwtDecode id config now) w in
    trace w' = trace w ++ extra ∧
    (∀ i, replays i extra = 0) ∧
    tasks w' = <[id := t]> (tasks w) ∧
    localStorage w' = localStorage w ∧
    ((∃ c, t = InFlight c ∧ _retry c = _retry config ∧
           isRefreshing w' = isRefreshing w ∧
           refreshSubscribers w' = refreshSubscribers w) ∨
     ((t = OutAwaitPost config ∨ t = OutAwaitRefresh config None) ∧
      isRefreshing w = false ∧ isRefreshing w' = true ∧
      refreshSubscribers w' = refreshSubscribers w) ∨
     (t = Subscribed ∧ isRefreshing w = true ∧ isRefreshing w' = true ∧
      refreshSubscribers w' = refreshSubscribers w ++ [mkCallback id config])).
Proof.
  cbv [apiClient requestInterceptor_enter exec bind getItem gets try_catch lift].
  destruct (truthy (localStorage w !! "access_token")) eqn:Ht.
  2:{ exists [Transmit id config], (InFlight config).
      straight. cbn. repeat split; eauto 10. }
  apply truthy_true in Ht as (token & -> & _).
  destruct (jwtDecode token) as [decoded|].
  2:{ exists [ConsoleError; Transmit id config], (InFlight config).
      straight. cbn. rewrite <- app_assoc. repeat split; eauto 10. }
  destruct (js_lt (exp decoded) (seconds now)).
  2:{ exists [Transmit id (set_Authorization token config)],
        (InFlight (set_Authorization token config)).
      straight. cbn. repeat split; eauto 10. }
  destruct (isRefreshing w) eqn:Hr; cbn [negb].
  { exists [], Subscribed. straight. cbn. rewrite app_nil_r.
    repeat split; eauto 10. }
  cbv [modify].
  destruct (refreshToken_request_cases (with_isRefreshing true w))
    as [-> | [refresh ->]].
  - exists [], (OutAwaitRefresh config None). straight. cbn.
    rewrite app_nil_r. repeat split; eauto 10.
  - exists [RefreshPost refresh], (OutAwaitPost config). straight. cbn.
    repeat split; eauto 10.
Qed.


(** ** The subscriber list and the flag *)






(** ** Single flight in the request interceptor *)

(** Reduces the projections of a world written with the setters. *)
Ltac fields :=
  cbn [localStorage isRefreshing refreshSubscribers authStore location_href
       tasks trace with_localStorage with_isRefreshing
       with_refreshSubscribers with_authStore with_location_href
       with_tasks with_trace].

Lemma refreshPosts_app (t l : list Effect) :
  refreshPosts (t ++ l) = refreshPosts t ++ refreshPosts l.
Proof. apply omap_app. Qed.

Lemma refreshPosts_drained token (l : list Callback) :
  refreshPosts (drained token l) = [].
Proof. induction l as [|cb l IH]; [reflexivity | exact IH]. Qed.

Lemma run_app w (es1 es2 : list Event) :
  run jwtDecode persistJSON w (es1 ++ es2)
  = match run jwtDecode persistJSON w es1 with
    | Some w' => run jwtDecode persistJSON w' es2
    | None => None
    end.
Proof.
  revert w. induction es1 as [|e es1 IH]; intros w; [reflexivity|].
  cbn [app run]. destruct (step jwtDecode persistJSON w e); [apply IH | done].
Qed.

(** A request issued with an expired token while a renewal is in flight
    joins the list and does nothing else. *)
Lemma subscribe_turn w (r : nat * Config * Z) token (e : Q) :
  isRefreshing w = true →
  localStorage w !! "access_token" = Some token →
  token ≠ EmptyString →
  jwtDecode token = Normal (mkClaims (Some e)) →
  (e < seconds r.2)%Q →
  tasks w !! r.1.1 = None →
  step jwtDecode persistJSON w (issue r)
  = Some (with_tasks (insert r.1.1 Subscribed)
            (with_refreshSubscribers (λ l, l ++ [waiter r]) w)).
Proof.
  intros Hr Hl Hne Hd Hlt Hfresh. cbv [issue step]. rewrite Hfresh.
  cbv [exec apiClient bind].
  rewrite (enter_decoded w _ _ _ token e Hl Hne Hd).
  apply js_lt_Qlt in Hlt. rewrite Hlt, Hr. reflexivity.
Qed.

Lemma subscribe_all (reqs : list (nat * Config * Z)) w token (e : Q) :
  isRefreshing w = true →
  localStorage w !! "access_token" = Some token →
  token ≠ EmptyString →
  jwtDecode token = Normal (mkClaims (Some e)) →
  Forall (λ r, (e < seconds r.2)%Q) reqs →
  NoDup (map (λ r, r.1.1) reqs) →
  Forall (λ r, tasks w !! r.1.1 = None) reqs →
  ∃ w', run jwtDecode persistJSON w (map issue reqs) = Some w' ∧
    trace w' = trace w ∧
    refreshSubscribers w' = refreshSubscribers w ++ map waiter reqs ∧
    isRefreshing w' = true ∧
    localStorage w' = localStorage w ∧
    ∀ i, i ∉ map (λ r, r.1.1) reqs → tasks w' !! i = tasks w !! i.
Proof.
  intros Hr Hl Hne Hd. revert w Hr Hl.
  induction reqs as [|r reqs IH]; intros w Hr Hl Hlt Hdup Hfresh.
  - exists w. cbn. rewrite app_nil_r. done.
  - apply Forall_cons in Hlt as [Hlt Hlts].
    apply Forall_cons in Hfresh as [Hfresh Hfreshs].
    cbn [map] in Hdup. apply NoDup_cons in Hdup as [Hnotin Hdup].
    cbn [map run].
    rewrite (subscribe_turn w r token e Hr Hl Hne Hd Hlt Hfresh).
    destruct (IH (with_tasks (insert r.1.1 Subscribed)
                    (with_refreshSubscribers (λ l, l ++ [waiter r]) w)))
      as (w' & Hrun & Htrace & Hsubs & Hflag & Hstore & Htasks); auto.
    { apply Forall_forall. intros r' Hin. cbn.
      rewrite lookup_insert_ne.
      - by apply (proj1 (Forall_forall _ _) Hfreshs).
      - intros Heq. apply Hnotin. rewrite Heq.
        apply list_elem_of_fmap. by exists r'. }
    exists w'. split; [exact Hrun|]. split; [exact Htrace|].
    split; [rewrite Hsubs; cbn; by rewrite <- app_assoc|].
    split; [exact Hflag|]. split; [exact Hstore|].
    intros i Hi. rewrite Htasks.
    + cbn. rewrite lookup_insert_ne; [done|]. intros Heq. apply Hi.
      rewrite <- Heq. cbn. left.
    + intros Hin. apply Hi. by right.
Qed.

(** Requests issued with an expired token while no renewal is in flight:
    the first one sends the POST, the others subscribe; when the POST
    answers with a token, the first one resumes, every subscriber is sent
    with the new token, in order, and then the first one.  One POST was
    sent, whatever the number of requests. *)
Lemma outbound_single_flight w (first : nat * Config * Z)
    (others : list (nat * Config * Z)) token (e : Q) refresh access now :
  isRefreshing w = false →
  refreshSubscribers w = [] →
  localStorage w !! "access_token" = Some token →
  token ≠ EmptyString →
  jwtDecode token = Normal (mkClaims (Some e)) →
  Forall (λ r, (e < seconds r.2)%Q) (first :: others) →
  localStorage w !! "refresh_token" = Some refresh →
  refresh ≠ EmptyString →
  access ≠ EmptyString →
  NoDup (map (λ r, r.1.1) (first :: others)) →
  Forall (λ r, tasks w !! r.1.1 = None) (first :: others) →
  ∃ w', run jwtDecode persistJSON w
          (map issue (first :: others)
           ++ [PostReply first.1.1 (Normal access); Resume first.1.1 now])
        = Some w' ∧
    trace w' = trace w ++ [RefreshPost refresh]
                 ++ drained access (map waiter others)
                 ++ [Transmit first.1.1 (set_Authorization access first.1.2)] ∧
    refreshPosts (trace w') = refreshPosts (trace w) ++ [refresh] ∧
    isRefreshing w' = false ∧
    refreshSubscribers w' = [] ∧
    localStorage w' !! "access_token" = Some access.
Proof.
  intros Hr Hnil Hl Hne Hd Hlt Hlr Hner Hnea Hdup Hfresh.
  apply Forall_cons in Hlt as [Hlt Hlts].
  apply Forall_cons in Hfresh as [Hfresh Hfreshs].
  cbn [map] in Hdup. apply NoDup_cons in Hdup as [Hnotin Hdup].
  set (w1 := with_tasks (insert first.1.1 (OutAwaitPost first.1.2))
               (with_trace (λ t, t ++ [RefreshPost refresh])
                  (with_isRefreshing true w))).
  assert (step jwtDecode persistJSON w (issue first) = Some w1) as Hstep1.
  { cbv [issue step]. rewrite Hfresh. cbv [exec apiClient bind].
    rewrite (enter_decoded w _ _ _ token e Hl Hne Hd).
    apply js_lt_Qlt in Hlt. rewrite Hlt, Hr. cbn [negb]. cbv [bind].
    rewrite (refreshToken_request_present _ refresh); done. }
  destruct (subscribe_all others w1 token e)
    as (w2 & Hrun2 & Htrace2 & Hsubs2 & Hflag2 & Hstore2 & Htasks2); auto.
  { apply Forall_forall. intros r' Hin. cbn.
    rewrite lookup_insert_ne.
    - by apply (proj1 (Forall_forall _ _) Hfreshs).
    - intros Heq. apply Hnotin. rewrite Heq.
      apply list_elem_of_fmap. by exists r'. }
  assert (tasks w2 !! first.1.1 = Some (OutAwaitPost first.1.2)) as Htask2.
  { rewrite (Htasks2 _ Hnotin). cbn. by rewrite lookup_insert_eq. }
  set (w3 := with_tasks (insert first.1.1
                           (OutAwaitRefresh first.1.2 (Some access)))
               (with_localStorage (insert "access_token" access) w2)).
  assert (step jwtDecode persistJSON w2 (PostReply first.1.1 (Normal access))
          = Some w3) as Hstep3.
  { cbv [step]. rewrite Htask2. reflexivity. }
  assert (tasks w3 !! first.1.1
          = Some (OutAwaitRefresh first.1.2 (Some access))) as Htask3.
  { cbn. by rewrite lookup_insert_eq. }
  eexists. split.
  { cbn [map app run]. rewrite Hstep1.
    rewrite run_app, Hrun2. cbn [run]. rewrite Hstep3.
    rewrite (resume_renewed w3 _ _ _ now Htask3 Hnea). reflexivity. }
  subst w3. fields. rewrite Htrace2, Hsubs2. subst w1. fields.
  rewrite Hnil. cbn [app].
  split; [by rewrite <- !app_assoc|]. split.
  { rewrite !refreshPosts_app, refreshPosts_drained. cbn.
    by rewrite !app_nil_r. }
  split; [done|]. split; [done|]. by rewrite lookup_insert_eq.
Qed.

(** ** The [_retry] mark *)

Lemma replays_drained id token (l : list Callback) :
  replays id (drained token l) = 0.
Proof.
  induction l as [|cb l IH]; [reflexivity|].
  change (drained token (cb :: l))
    with ([Invoke (cb_id cb) token;
           Transmit (cb_id cb) (set_Authorization token (cb_config cb))]
          ++ drained token l).
  rewrite replays_app, IH. reflexivity.
Qed.

Lemma drainTasks_lookup token (l : list Callback) (m : gmap nat Task) i :
  drainTasks token l m !! i = m !! i ∨
  ∃ cb, cb ∈ l ∧ cb_id cb = i ∧
    drainTasks token l m !! i
      = Some (InFlight (set_Authorization token (cb_config cb))).
Proof.
  revert m. induction l as [|cb l IH]; intros m; [by left|].
  change (drainTasks token (cb :: l) m)
    with (drainTasks token l
            (<[cb_id cb :=
                 InFlight (set_Authorization token (cb_config cb))]> m)).
  destruct (IH (<[cb_id cb :=
                    InFlight (set_Authorization token (cb_config cb))]> m))
    as [Heq | (cb' & Hin & Hid & Heq)].
  - rewrite Heq. destruct (decide (cb_id cb = i)) as [Hi|Hi].
    + right. exists cb. rewrite <- Hi, lookup_insert_eq.
      split; [left|]; done.
    + left. by rewrite lookup_insert_ne.
  - right. exists cb'. split; [by right|]. done.
Qed.

Lemma untouched_ext (R R' : nat → Prop) i w w' :
  (R' i → R i) →
  replays i (trace w') = replays i (trace w) →
  untouched R i w → untouched R' i w'.
Proof.
  intros HR Hrep [Hn H0]. split; [tauto | congruence].
Qed.

Lemma taskInvariant_ext (R R' : nat → Prop) i w w' t :
  (R' i → R i) →
  replays i (trace w') = replays i (trace w) →
  taskInvariant R i w t → taskInvariant R' i w' t.
Proof.
  intros HR Hrep. destruct t as [[]|]; cbn; rewrite ?Hrep;
    eauto using untouched_ext.
Qed.

(** A turn that moves one request [id], which is not on the subscriber
    list, and at most appends a callback for it. *)
Lemma retry_frame (R R' : nat → Prop) w w' id t :
  retryInvariant R w →
  (∀ i, i ≠ id → replays i (trace w') = replays i (trace w)) →
  replays id (trace w') ≤ 1 →
  (∀ i, i ≠ id → R' i → R i) →
  tasks w' = <[id := t]> (tasks w) →
  taskInvariant R' id w' (Some t) →
  tasks w !! id ≠ Some Subscribed →
  (refreshSubscribers w' = refreshSubscribers w ∨
   ∃ c, t = Subscribed ∧
     refreshSubscribers w' = refreshSubscribers w ++ [mkCallback id c] ∧
     (_retry c = false → untouched R' id w')) →
  retryInvariant R' w'.
Proof.
  intros Hinv Hrep Hle HR Htasks Ht Hnot Hsubs i.
  destruct (Hinv i) as (Hle_i & Htask_i & Hcb_i).
  destruct (decide (i = id)) as [->|Hne].
  - split; [exact Hle|]. rewrite Htasks, lookup_insert_eq.
    split; [exact Ht|]. intros cb Hin Hid.
    destruct Hsubs as [Hsame | (c & -> & Happ & Hc)].
    + rewrite Hsame in Hin. destruct (Hcb_i cb Hin Hid) as [Hsub _]. congruence.
    + rewrite Happ in Hin. apply elem_of_app in Hin as [Hin|Hin].
      * destruct (Hcb_i cb Hin Hid) as [Hsub _]. congruence.
      * apply list_elem_of_singleton in Hin as ->. split; [reflexivity | exact Hc].
  - split; [rewrite (Hrep i Hne); exact Hle_i|].
    rewrite Htasks, lookup_insert_ne by congruence.
    split; [by apply (taskInvariant_ext R R' i w w'); auto|].
    intros cb Hin Hid.
    assert (cb ∈ refreshSubscribers w) as Hold.
    { destruct Hsubs as [Hsame | (c & -> & Happ & Hc)]; [by rewrite <- Hsame|].
      rewrite Happ in Hin. apply elem_of_app in Hin as [Hin|Hin]; [done|].
      apply list_elem_of_singleton in Hin as ->. cbn in Hid. congruence. }
    destruct (Hcb_i cb Hold Hid) as [Hsub Hun]. split; [exact Hsub|].
    intros Hr. apply (untouched_ext R R' i w w'); auto.
Qed.


Lemma replays_other i id : i ≠ id → replays i [Replay id] = 0.
Proof. intros Hne. cbv [replays omap list_omap]. by case_decide. Qed.

Lemma replays_self id : replays id [Replay id] = 1.
Proof. cbv [replays omap list_omap]. by case_decide. Qed.

(** [apiClient], called for request [id] in a world [w1] that differs from
    [w] in its trace only. *)
Lemma apiClient_retry (R R' : nat → Prop) w w1 id config now :
  retryInvariant R w →
  tasks w1 = tasks w →
  refreshSubscribers w1 = refreshSubscribers w →
  (∀ i, i ≠ id → replays i (trace w1) = replays i (trace w)) →
  replays id (trace w1) ≤ 1 →
  (∀ i, i ≠ id → R' i → R i) →
  tasks w !! id ≠ Some Subscribed →
  (_retry config = false → ¬ R' id ∧ replays id (trace w1) = 0) →
  retryInvariant R' (exec (apiClient jwtDecode id config now) w1).
Proof.
  intros Hinv Htasks Hsubs Hrep Hle HR Hnot Hfresh.
  destruct (apiClient_cases w1 id config now)
    as (extra & t & Htr & Hextra & Ht & _ & Hc). cbn zeta in *.
  assert (∀ i, replays i (trace (exec (apiClient jwtDecode id config now) w1))
               = replays i (trace w1)) as Hsame.
  { intros i. rewrite Htr, replays_app, Hextra. lia. }
  assert (_retry config = false →
          untouched R' id (exec (apiClient jwtDecode id config now) w1)) as Hun.
  { intros Hr. destruct (Hfresh Hr). split; [done|]. by rewrite Hsame. }
  apply (retry_frame R R' w _ id t Hinv).
  - intros i Hne. rewrite Hsame. by apply Hrep.
  - by rewrite Hsame.
  - exact HR.
  - by rewrite Ht, Htasks.
  - destruct Hc as [(c & -> & Hr & _) | [([-> | ->] & _) | (-> & _)]]; cbn;
      [rewrite Hr| | |]; done.
  - exact Hnot.
  - destruct Hc as [(c & _ & _ & _ & Hs) | [(_ & _ & _ & Hs) | (-> & _ & _ & Hs)]].
    + left. by rewrite Hs.
    + left. by rewrite Hs.
    + right. exists config. rewrite Hs, Hsubs. done.
Qed.

(** Counts the replays in a trace extended by effects that are written
    out. *)
Ltac tally :=
  rewrite ?replays_app;
  repeat match goal with
         | |- context [replays ?i [?e]] =>
             let v := eval cbv in (replays i [e]) in
             change (replays i [e]) with v
         end.

Lemma step_retry (R : nat → Prop) w e w' :
  retryInvariant R w →
  step jwtDecode persistJSON w e = Some w' →
  retryInvariant (λ i, R i ∨ e = Response i (Failure (Some 401))) w'.
Proof.
  intros Hinv Hstep.
  destruct e as [id config now | id reply | id now | id reply];
    destruct (Hinv id) as (Hle & Htask & Hcb);
    destruct (tasks w !! id) as [[c|c newToken| |c|c st|c st newToken|o]|] eqn:Ht;
    try (cbn [step] in Hstep; rewrite Ht in Hstep; discriminate Hstep);
    cbn [taskInvariant] in Htask.
  - (* Issue *)
    cbn [step] in Hstep. rewrite Ht in Hstep. simplify_eq.
    apply (apiClient_retry R _ w w); auto.
    + intros i _ [HR | Hne]; [done | discriminate].
    + congruence.
    + intros _. destruct Htask as [HnR H0]. split; [|done].
      intros [HR | Hne]; [done | discriminate].
  - (* PostReply, request interceptor *)
    cbn [step] in Hstep. rewrite Ht in Hstep. simplify_eq.
    apply (retry_frame R _ w _ id
             (OutAwaitRefresh c match reply with
                                | Normal a => Some a | Throw => None end) Hinv).
    + intros i _. by destruct reply.
    + by destruct reply.
    + intros i _ [HR | Hne]; [done | discriminate].
    + by destruct reply.
    + cbn. intros Hr. destruct (Htask Hr) as [HnR H0]. split.
      * intros [HR | Hne]; [done | discriminate].
      * by destruct reply.
    + congruence.
    + left. by destruct reply.
  - (* PostReply, response interceptor *)
    cbn [step] in Hstep. rewrite Ht in Hstep. simplify_eq.
    apply (retry_frame R _ w _ id
             (InAwaitRefresh c st match reply with
                                  | Normal a => Some a | Throw => None end) Hinv).
    + intros i _. by destruct reply.
    + by destruct reply.
    + intros i _ [HR | Hne]; [done | discriminate].
    + by destruct reply.
    + cbn. destruct Htask as [Hr H0]. split; [done|]. by destruct reply.
    + congruence.
    + left. by destruct reply.
  - (* Resume, request interceptor *)
    destruct (truthy newToken) eqn:Htr.
    + apply truthy_true in Htr as (token & -> & Hne).
      rewrite (resume_renewed _ _ _ _ now Ht Hne) in Hstep.
      injection Hstep as Hw'.
      assert (trace w' = (trace w ++ drained token (refreshSubscribers w))
                         ++ [Transmit id (set_Authorization token c)])
        as Htrace by (by rewrite <- Hw').
      assert (tasks w' = <[id := InFlight (set_Authorization token c)]>
                           (drainTasks token (refreshSubscribers w) (tasks w)))
        as Htasks by (by rewrite <- Hw').
      assert (refreshSubscribers w' = []) as Hsubs by (by rewrite <- Hw').
      clear Hw'.
      intros i. destruct (Hinv i) as (Hle_i & Htask_i & Hcb_i).
      assert (replays i (trace w') = replays i (trace w)) as Hrep.
      { rewrite Htrace, !replays_app, replays_drained. cbn. lia. }
      assert ((R i ∨ Resume id now = Response i (Failure (Some 401))) → R i)
        as HR by (intros [HR | Hne']; [done | discriminate]).
      split; [by rewrite Hrep|]. split.
      * rewrite Htasks. destruct (decide (i = id)) as [->|Hne'].
        -- rewrite lookup_insert_eq. cbn. intros Hr.
           apply (untouched_ext R _ id w w'); auto.
        -- rewrite lookup_insert_ne by congruence.
           destruct (drainTasks_lookup token (refreshSubscribers w) (tasks w) i)
             as [Heq | (cb & Hin & Hid & Heq)]; rewrite Heq.
           ++ apply (taskInvariant_ext R _ i w w'); auto.
           ++ cbn. intros Hr. destruct (Hcb_i cb Hin Hid) as [_ Hun].
              apply (untouched_ext R _ i w w'); auto.
      * rewrite Hsubs. intros cb Hin. by apply elem_of_nil in Hin.
    + destruct (teardown_turn w id c newToken now Ht Htr)
        as (w'' & Hs & Htrace & Htasks & _ & _ & _ & _ & Hsubs).
      rewrite Hs in Hstep. simplify_eq.
      assert (∀ i, replays i (trace w') = replays i (trace w)) as Hrep.
      { intros i. rewrite Htrace, replays_app. cbn. lia. }
      apply (retry_frame R _ w w' id (InFlight c) Hinv); auto.
      * by rewrite Hrep.
      * intros i _ [HR | Hne]; [done | discriminate].
      * cbn. intros Hr. destruct (Htask Hr) as [HnR H0]. split.
        -- intros [HR | Hne]; [done | discriminate].
        -- by rewrite Hrep.
      * congruence.
  - (* Resume, response interceptor *)
    cbn [step] in Hstep. rewrite Ht in Hstep. simplify_eq.
    destruct Htask as [Hr H0].
    cbv [responseInterceptor_resume]. destruct (truthy newToken) eqn:Htr.
    + apply truthy_true in Htr as (token & -> & Hne).
      change (exec (emit (Replay id) >>
                    apiClient jwtDecode id (set_Authorization token c) now) w)
        with (exec (apiClient jwtDecode id (set_Authorization token c) now)
                (with_trace (λ t, t ++ [Replay id]) w)).
      apply (apiClient_retry R _ w);
        cbn [tasks refreshSubscribers trace with_trace _retry set_Authorization];
        auto.
      * intros i Hne'. rewrite replays_app, replays_other by done. lia.
      * rewrite replays_app, replays_self. lia.
      * intros i _ [HR | Hne']; [done | discriminate].
      * congruence.
      * congruence.
    + apply (retry_frame R _ w _ id (Settled (Rejected st)) Hinv);
        straight; cbn -[replays]; auto; try (intros; tally; lia).
      * intros i _ [HR | Hne]; [done | discriminate].
      * congruence.
  - (* Response *)
    cbn [step] in Hstep. rewrite Ht in Hstep.
    assert (∀ i, i ≠ id →
              R i ∨ Response id reply = Response i (Failure (Some 401)) → R i)
      as HR by (intros i Hne [HR | Heq]; [done | congruence]).
    destruct reply as [status|status]; simplify_eq.
    + apply (retry_frame R _ w _ id (Settled (Fulfilled status)) Hinv);
        straight; cbn -[replays]; auto; try (intros; tally; lia).
      congruence.
    + cbv [responseInterceptor_enter].
      destruct (is401 status && negb (_retry c)) eqn:Hguard.
      * apply andb_true_iff in Hguard as [H401 Hr].
        apply negb_true_iff in Hr. destruct (Htask Hr) as [HnR H0].
        cbv [exec bind].
        destruct (refreshToken_request_cases w) as [-> | [refresh ->]].
        -- apply (retry_frame R _ w _ id
                    (InAwaitRefresh (set_retry c) status None) Hinv);
             straight; cbn -[replays]; auto; try (intros; tally; lia).
           congruence.
        -- apply (retry_frame R _ w _ id
                    (InAwaitPost (set_retry c) status) Hinv);
             straight; cbn -[replays]; auto; try (intros; tally; lia).
           congruence.
      * apply (retry_frame R _ w _ id (Settled (Rejected status)) Hinv);
          straight; cbn -[replays]; auto; try (intros; tally; lia).
        congruence.
Qed.


Lemma retryInvariant_ext (R R' : nat → Prop) w :
  (∀ i, R' i → R i) → retryInvariant R w → retryInvariant R' w.
Proof.
  intros HR Hinv i. destruct (Hinv i) as (Hle & Htask & Hcb).
  split; [exact Hle|]. split.
  - apply (taskInvariant_ext R R' i w w); auto.
  - intros cb Hin Hid. destruct (Hcb cb Hin Hid) as [Hsub Hun].
    split; [exact Hsub|]. intros Hr.
    apply (untouched_ext R R' i w w); auto.
Qed.

Lemma run_retry (R : nat → Prop) w es w' :
  retryInvariant R w →
  run jwtDecode persistJSON w es = Some w' →
  retryInvariant (λ i, R i ∨ rejected401 i es) w'.
Proof.
  revert R w. induction es as [|e es IH]; intros R w Hinv Hrun.
  - cbn in Hrun. simplify_eq. apply (retryInvariant_ext R); [|exact Hinv].
    intros i [HR | Hin]; [exact HR|]. by apply elem_of_nil in Hin.
  - cbn [run] in Hrun.
    destruct (step jwtDecode persistJSON w e) as [w1|] eqn:Hstep;
      [|discriminate].
    pose proof (IH _ w1 (step_retry R w e w1 Hinv Hstep) Hrun) as Hlater.
    revert Hlater. apply retryInvariant_ext.
    intros i [HR | Hin]; [by left; left|].
    apply elem_of_cons in Hin as [Heq | Hin]; [left; right | right]; done.
Qed.

Lemma retryInvariant_init w :
  tasks w = ∅ → refreshSubscribers w = [] → trace w = [] →
  retryInvariant (λ _, False) w.
Proof.
  intros Ht Hs Htr i. rewrite Ht, Hs, Htr, lookup_empty. cbn.
  split; [cbv; lia|]. split.
  - split; [tauto | by rewrite Htr].
  - intros cb Hin. by apply elem_of_nil in Hin.
Qed.

(** C2: on a page that starts with no request under way, whatever the
    order of events, the response interceptor replays a request at most
    once; and once a request has been rejected with 401, any further
    rejection of it is handed to the caller as a failure in the same turn:
    the promise is rejected, and the turn sends no POST to the refresh
    endpoint, replays nothing and leaves the store alone. *)
Theorem at_most_one_retry w0 es w id :
  tasks w0 = ∅ → refreshSubscribers w0 = [] → trace w0 = [] →
  run jwtDecode persistJSON w0 es = Some w →
  replays id (trace w) ≤ 1 ∧
  (rejected401 id es →
   ∀ status w',
     step jwtDecode persistJSON w (Response id (Failure status)) = Some w' →
     w' = with_tasks (insert id (Settled (Rejected status)))
            (with_trace (λ t, t ++ [Settle id (Rejected status)]) w)).
Proof.
  intros Ht Hs Htr Hrun.
  pose proof (run_retry _ w0 es w (retryInvariant_init w0 Ht Hs Htr) Hrun id)
    as (Hle & Htask & _).
  split; [exact Hle|].
  intros Hrej status w' Hstep. cbn [step] in Hstep.
  destruct (tasks w !! id) as [[c|c newToken| |c|c st|c st newToken|o]|];
    try discriminate Hstep.
  cbn [taskInvariant] in Htask.
  destruct (_retry c) eqn:Hr.
  - cbv [responseInterceptor_enter] in Hstep. rewrite Hr in Hstep.
    rewrite andb_false_r in Hstep. by simplify_eq.
  - destruct (Htask eq_refl) as [HnR _]. exfalso. apply HnR. by right.
Qed.

End Properties.

(** * The code on a concrete page *)

(** C1: the response interceptor calls [refreshToken] without consulting
    [isRefreshing]: two requests rejected with 401 while no renewal is in
    flight send two POSTs to the refresh endpoint, both with the same
    refresh token, and the flag stays down. *)
Theorem inbound_renewals_not_single_flight :
  (λ w, (refreshPosts (trace w), isRefreshing w))
    <$> Demo.run (Demo.page "new") Demo.bothRejected
  = Some (["r1"; "r1"], false).
Proof. vm_compute. reflexivity. Qed.

(** C5: when both of those refresh exchanges fail, each response
    interceptor tears the session down: the page is sent to [/login]
    twice; the credential keys are absent afterwards. *)
Theorem inbound_teardown_fires_twice :
  (λ w, (redirects (trace w),
         localStorage w !! "access_token",
         localStorage w !! "refresh_token"))
    <$> Demo.run (Demo.page "new") Demo.bothRejectedThenFail
  = Some (["/login"; "/login"], None, None).
Proof. vm_compute. reflexivity. Qed.


(** Against C4 as stated: a token that does not decode starts no renewal;
    the request proceeds. *)
Lemma malformed_token_starts_no_renewal :
  Demo.jwtDecode "garbage" = Throw ∧
  requestInterceptor_enter Demo.jwtDecode 1 Demo.getCourts 200000
    (Demo.page "garbage")
  = (with_trace (λ t, t ++ [ConsoleError]) (Demo.page "garbage"),
     Normal (Proceed Demo.getCourts)) ∧
  ¬ entersRenewal
      (snd (requestInterceptor_enter Demo.jwtDecode 1 Demo.getCourts 200000
              (Demo.page "garbage"))).
Proof.
  split; [reflexivity|]. split; [vm_compute; reflexivity|].
  vm_compute. tauto.
Qed.


(** Against C7 as stated: the renewal started for request 1 fails, and
    request 1 goes on the wire all the same, with the config it came with,
    after the credentials were removed. *)
Lemma request_sent_after_failed_renewal :
  (λ w, (transmitted 1 (trace w), localStorage w !! "access_token",
         location_href w))
    <$> Demo.run (Demo.page "old")
          [Issue 1 Demo.getCourts 200000; PostReply 1 Throw; Resume 1 200050]
  = Some ([Demo.getCourts], None, "/login").
Proof. vm_compute. reflexivity. Qed.

(** * The theorems at work on the page *)

Lemma missing_credential_pass_through_witness :
  localStorage Demo.anonymous !! "access_token" = None ∧
  requestInterceptor_enter Demo.jwtDecode 1 Demo.getCourts 200000 Demo.anonymous
    = (Demo.anonymous, Normal (Proceed Demo.getCourts)).
Proof.
  split; [reflexivity|].
  apply (missing_credential_pass_through Demo.jwtDecode Demo.anonymous
           1 Demo.getCourts 200000).
  reflexivity.
Defined.


Lemma decode_failure_passes_through_witness :
  requestInterceptor_enter Demo.jwtDecode 1 Demo.getCourts 200000
    (Demo.page "garbage")
  = (with_trace (λ t, t ++ [ConsoleError]) (Demo.page "garbage"),
     Normal (Proceed Demo.getCourts)).
Proof.
  apply (decode_failure_passes_through Demo.jwtDecode (Demo.page "garbage")
           1 Demo.getCourts 200000 "garbage");
    [reflexivity | discriminate | reflexivity].
Defined.


Lemma renewal_failure_still_sends_witness :
  ∃ w', Demo.step
          (Demo.after (Demo.page "old")
             [Issue 1 Demo.getCourts 200000; PostReply 1 Throw])
          (Resume 1 200050) = Some w' ∧
    transmitted 1 (trace w') = [Demo.getCourts] ∧
    localStorage w' !! "access_token" = None ∧
    localStorage w' !! "refresh_token" = None ∧
    location_href w' = "/login".
Proof.
  destruct (renewal_failure_still_sends Demo.jwtDecode Demo.persistJSON
              (Demo.after (Demo.page "old")
                 [Issue 1 Demo.getCourts 200000; PostReply 1 Throw])
              1 Demo.getCourts None 200050)
    as (w' & Hstep & Htrace & _ & Haccess & Hrefresh & Hhref & _);
    [vm_compute; reflexivity | reflexivity |].
  exists w'. split; [exact Hstep|].
  split; [rewrite Htrace; vm_compute; reflexivity|]. auto.
Defined.


Lemma at_most_one_retry_witness :
  replays 1 (trace (Demo.after (Demo.page "new") Demo.rejectedThenReplayed)) ≤ 1 ∧
  Demo.after (Demo.page "new")
    (Demo.rejectedThenReplayed ++ [Response 1 (Failure (Some 401))])
  = with_tasks (insert 1 (Settled (Rejected (Some 401))))
      (with_trace (λ t, t ++ [Settle 1 (Rejected (Some 401))])
         (Demo.after (Demo.page "new") Demo.rejectedThenReplayed)).
Proof.
  destruct (at_most_one_retry Demo.jwtDecode Demo.persistJSON
              (Demo.page "new") Demo.rejectedThenReplayed
              (Demo.after (Demo.page "new") Demo.rejectedThenReplayed) 1)
    as [Hle Hterminal];
    [reflexivity | reflexivity | reflexivity | vm_compute; reflexivity |].
  split; [exact Hle|].
  apply Hterminal.
  - unfold rejected401, Demo.rejectedThenReplayed.
    rewrite !elem_of_cons. right. left. reflexivity.
  - vm_compute. reflexivity.
Defined.

(** * The turns, one shape each *)

Section Turns.

Context {User : Type}.
Variable jwtDecode : string → completion Claims.
Variable persistJSON : option User → bool → string.

Implicit Types (w : @World User) (config : Config) (token : string).

Lemma apiClient_enter w id config now :
  Enter id config w (exec (apiClient jwtDecode id config now) w).
Proof.
  cbv [apiClient requestInterceptor_enter exec bind getItem gets try_catch lift].
  destruct (truthy (localStorage w !! "access_token")) eqn:Ht.
  2:{ by apply enter_plain. }
  apply truthy_true in Ht as (token & Hl & _). rewrite Hl.
  destruct (jwtDecode token) as [decoded|].
  2:{ apply enter_undecoded. }
  destruct (js_lt (exp decoded) (seconds now)).
  2:{ by apply enter_bearer. }
  destruct (isRefreshing w) eqn:Hr; cbn [negb].
  { by apply enter_subscribe. }
  cbv [modify].
  destruct (truthy (localStorage w !! "refresh_token")) eqn:Htr.
  - apply truthy_true in Htr as (refresh & Hlr & Hne).
    rewrite (refreshToken_request_present (with_isRefreshing true w) refresh)
      by done.
    by apply enter_renew_post.
  - rewrite (refreshToken_request_absent (with_isRefreshing true w)) by done.
    by apply enter_renew_null.
Qed.

(** Every enabled event is one of the turns of [Turn]. *)
Lemma step_turn w e w' :
  step jwtDecode persistJSON w e = Some w' → Turn persistJSON w e w'.
Proof.
  intros Hstep. pose proof Hstep as Hstep0.
  destruct e as [id config now | id reply | id now | id reply];
    cbn [step] in Hstep;
    destruct (tasks w !! id) as [[c|c newToken| |c|c st|c st newToken|o]|] eqn:Ht;
    try discriminate Hstep;
    try (injection Hstep as Hw'; rewrite <- Hw').
  - apply turn_issue; [done | apply apiClient_enter].
  - destruct reply; [by apply turn_post_out | by apply turn_post_out_throw].
  - destruct reply; [by apply turn_post_in | by apply turn_post_in_throw].
  - destruct (truthy newToken) eqn:Htr.
    + apply truthy_true in Htr as (token & -> & Hne).
      rewrite Hw'.
      rewrite (resume_renewed jwtDecode persistJSON w id c token now Ht Hne)
        in Hstep0.
      injection Hstep0 as <-. by apply turn_resume_out.
    + cbv [exec bind requestInterceptor_resume try_catch modify].
      rewrite Htr. by apply (turn_resume_out_null _ w id c newToken).
  - cbv [responseInterceptor_resume]. destruct (truthy newToken) eqn:Htr.
    + apply truthy_true in Htr as (token & -> & Hne).
      apply (turn_resume_in _ w id c st token); [done | done |].
      apply apiClient_enter.
    + by apply (turn_resume_in_null _ w id c st newToken).
  - destruct reply as [status|status]; injection Hstep as <-;
      [by apply (turn_response _ w id c)|].
    cbv [responseInterceptor_enter].
    destruct (is401 status && negb (_retry c)) eqn:Hguard.
    + apply andb_true_iff in Hguard as [H401 Hr]. apply negb_true_iff in Hr.
      cbv [exec bind].
      destruct (truthy (localStorage w !! "refresh_token")) eqn:Htr.
      * apply truthy_true in Htr as (refresh & Hlr & Hne).
        rewrite (refreshToken_request_present w refresh) by done.
        by apply (turn_renew_post _ w id c status refresh).
      * rewrite (refreshToken_request_absent w) by done.
        by apply (turn_renew_null _ w id c status).
    + by apply (turn_reject _ w id c status).
Qed.

End Turns.

(** * One renewal of the request interceptor at a time *)

Section OneRenewal.

Context {User : Type}.
Variable jwtDecode : string → completion Claims.
Variable persistJSON : option User → bool → string.

Implicit Types (w : @World User) (config : Config) (token : string).

(** A turn that moves one request. *)
Lemma renewal_frame w w' id t :
  renewalInvariant w →
  tasks w' = <[id := t]> (tasks w) →
  ((renewing (Some t) ↔ renewing (tasks w !! id)) ∧
   isRefreshing w' = isRefreshing w) ∨
  (isRefreshing w = false ∧ isRefreshing w' = true ∧ renewing (Some t)) ∨
  (renewing (tasks w !! id) ∧ ¬ renewing (Some t) ∧ isRefreshing w' = false) →
  renewalInvariant w'.
Proof.
  intros [Hflag Hone] Htasks Hcase.
  assert (∀ i, i ≠ id → tasks w' !! i = tasks w !! i) as Hother.
  { intros i Hne. rewrite Htasks. by apply lookup_insert_ne. }
  assert (tasks w' !! id = Some t) as Hid.
  { rewrite Htasks. apply lookup_insert_eq. }
  destruct Hcase as [[Hiff Hsame] | [(Hdown & Hup & Hnew) | (Hold & Hnot & Hdown)]].
  - assert (∀ i, renewing (tasks w' !! i) ↔ renewing (tasks w !! i)) as Heq.
    { intros i. destruct (decide (i = id)) as [->|Hne];
        [by rewrite Hid | by rewrite Hother]. }
    split.
    + rewrite Hsame. intros Hr. destruct (Hflag Hr) as [i Hi].
      exists i. by apply Heq.
    + intros i Hi. apply Heq in Hi. destruct (Hone i Hi) as [Hr Huniq].
      split; [by rewrite Hsame|]. intros j Hj. apply Heq in Hj. by apply Huniq.
  - assert (∀ i, ¬ renewing (tasks w !! i)) as Hnone.
    { intros i Hi. destruct (Hone i Hi) as [Hr _]. congruence. }
    assert (∀ i, renewing (tasks w' !! i) → i = id) as Honly.
    { intros i Hi. destruct (decide (i = id)) as [|Hne]; [done|].
      rewrite Hother in Hi by done. by destruct (Hnone i). }
    split.
    + intros _. exists id. by rewrite Hid.
    + intros i Hi. split; [done|]. intros j Hj.
      rewrite (Honly i Hi). by apply Honly.
  - assert (∀ i, ¬ renewing (tasks w' !! i)) as Hnone.
    { intros i Hi. destruct (decide (i = id)) as [->|Hne].
      - rewrite Hid in Hi. by apply Hnot.
      - rewrite Hother in Hi by done.
        destruct (Hone id Hold) as [_ Huniq]. by apply Hne, Huniq. }
    split; [congruence|]. intros i Hi. by destruct (Hnone i).
Qed.

Lemma renewal_enter w1 w' id config :
  renewalInvariant w1 →
  ¬ renewing (tasks w1 !! id) →
  Enter id config w1 w' →
  renewalInvariant w'.
Proof.
  intros Hinv Hnot Henter.
  destruct Henter as [Ht | | token Hl | Hr | refresh Hr Hl | Hr Ht].
  - apply (renewal_frame w1 _ id (InFlight config) Hinv); [done|].
    left. cbn. tauto.
  - apply (renewal_frame w1 _ id (InFlight config) Hinv); [done|].
    left. cbn. tauto.
  - apply (renewal_frame w1 _ id (InFlight (set_Authorization token config))
             Hinv); [done|].
    left. cbn. tauto.
  - apply (renewal_frame w1 _ id Subscribed Hinv); [done|].
    left. cbn. tauto.
  - apply (renewal_frame w1 _ id (OutAwaitPost config) Hinv); [done|].
    right. left. cbn. tauto.
  - apply (renewal_frame w1 _ id (OutAwaitRefresh config None) Hinv); [done|].
    right. left. cbn. tauto.
Qed.

Lemma renewal_turn w e w' :
  renewalInvariant w → Turn persistJSON w e w' → renewalInvariant w'.
Proof.
  intros Hinv Hturn.
  destruct Hturn as
    [ id config now w' Ht Henter
    | id config a Ht | id config Ht
    | id config status a Ht | id config status Ht
    | id config token now Ht Hne
    | id config newToken now Ht Hf
    | id config status token now w' Ht Hne Henter
    | id config status newToken now Ht Hf
    | id config status Ht
    | id config status Ht Hguard
    | id config status refresh Ht H401 Hr Hl
    | id config status Ht H401 Hr Hl ].
  - apply (renewal_enter w w' id config Hinv);
      [rewrite Ht; intros [] | done].
  - apply (renewal_frame w _ id (OutAwaitRefresh config (Some a)) Hinv);
      [done|]. left. rewrite Ht. cbn. tauto.
  - apply (renewal_frame w _ id (OutAwaitRefresh config None) Hinv);
      [done|]. left. rewrite Ht. cbn. tauto.
  - apply (renewal_frame w _ id (InAwaitRefresh config status (Some a)) Hinv);
      [done|]. left. rewrite Ht. cbn. tauto.
  - apply (renewal_frame w _ id (InAwaitRefresh config status None) Hinv);
      [done|]. left. rewrite Ht. cbn. tauto.
  - (* the drain *)
    destruct Hinv as [Hflag Hone].
    assert (renewing (tasks w !! id)) as Hid by (by rewrite Ht).
    destruct (Hone id Hid) as [_ Huniq].
    assert (∀ i, ¬ renewing
              (<[id := InFlight (set_Authorization token config)]>
                 (drainTasks token (refreshSubscribers w) (tasks w)) !! i))
      as Hnone.
    { intros i Hi. destruct (decide (i = id)) as [->|Hne'].
      - by rewrite lookup_insert_eq in Hi.
      - rewrite lookup_insert_ne in Hi by congruence.
        destruct (drainTasks_lookup token (refreshSubscribers w) (tasks w) i)
          as [Heq | (cb & _ & _ & Heq)]; rewrite Heq in Hi; [|done].
        by apply Hne', Huniq. }
    split; [cbn; congruence|]. intros i Hi. by destruct (Hnone i).
  - apply (renewal_frame w _ id (InFlight config) Hinv); [done|].
    right. right. rewrite Ht. cbn. tauto.
  - apply (renewal_enter (with_trace (λ t, t ++ [Replay id]) w) w' id
             (set_Authorization token config)); [exact Hinv | | done].
    cbn. rewrite Ht. intros [].
  - apply (renewal_frame w _ id (Settled (Rejected status)) Hinv); [done|].
    left. rewrite Ht. cbn. tauto.
  - apply (renewal_frame w _ id (Settled (Fulfilled status)) Hinv); [done|].
    left. rewrite Ht. cbn. tauto.
  - apply (renewal_frame w _ id (Settled (Rejected status)) Hinv); [done|].
    left. rewrite Ht. cbn. tauto.
  - apply (renewal_frame w _ id (InAwaitPost (set_retry config) status) Hinv);
      [done|]. left. rewrite Ht. cbn. tauto.
  - apply (renewal_frame w _ id (InAwaitRefresh (set_retry config) status None)
             Hinv); [done|]. left. rewrite Ht. cbn. tauto.
Qed.

Lemma renewal_run w es w' :
  renewalInvariant w →
  run jwtDecode persistJSON w es = Some w' →
  renewalInvariant w'.
Proof.
  revert w. induction es as [|e es IH]; intros w Hinv Hrun.
  - cbn in Hrun. by simplify_eq.
  - cbn [run] in Hrun.
    destruct (step jwtDecode persistJSON w e) as [w1|] eqn:Hstep;
      [|discriminate].
    apply (IH w1); [|done].
    apply (renewal_turn w e w1 Hinv). by apply (step_turn jwtDecode).
Qed.

(** X1: on a page that starts with no request under way and the flag down,
    whatever the order of events, [isRefreshing] is true exactly while some
    request waits in the request interceptor for the renewal it started,
    and at most one request is ever in that position. *)
Theorem one_renewal_in_flight w0 es w :
  tasks w0 = ∅ → isRefreshing w0 = false →
  run jwtDecode persistJSON w0 es = Some w →
  (isRefreshing w = true ↔ ∃ id, renewing (tasks w !! id)) ∧
  (∀ i j, renewing (tasks w !! i) → renewing (tasks w !! j) → i = j).
Proof.
  intros Ht Hr Hrun.
  assert (renewalInvariant w0) as Hinit.
  { split; [congruence|]. intros i Hi. by rewrite Ht, lookup_empty in Hi. }
  destruct (renewal_run w0 es w Hinit Hrun) as [Hflag Hone].
  split; [split|].
  - exact Hflag.
  - intros [i Hi]. by destruct (Hone i Hi).
  - intros i j Hi Hj. destruct (Hone j Hj) as [_ Huniq]. by apply Huniq.
Qed.

End OneRenewal.

(** Unfolds a spelled-out turn down to the fields of the world. *)
Ltac expose :=
  cbv [onWire settled teardown exec logout set navigate setItem removeItem
       emit bind ret gets modify];
  cbn [localStorage isRefreshing refreshSubscribers authStore location_href
       tasks trace with_localStorage with_isRefreshing
       with_refreshSubscribers with_authStore with_location_href
       with_tasks with_trace fst snd].

(** * The refresh token is never replaced *)

Section RefreshToken.

Context {User : Type}.
Variable jwtDecode : string → completion Claims.
Variable persistJSON : option User → bool → string.

Implicit Types (w : @World User) (config : Config) (token : string).

Lemma kept_frame (v : option string) w w' (extra : list Effect) :
  refreshTokenKept v w →
  (localStorage w' !! "refresh_token" = localStorage w !! "refresh_token" ∨
   localStorage w' !! "refresh_token" = None) →
  trace w' = trace w ++ extra →
  (∀ r, r ∈ refreshPosts extra →
        localStorage w !! "refresh_token" = Some r) →
  refreshTokenKept v w'.
Proof.
  intros [Hstore Hposts] Hstore' Htrace Hextra. split.
  - destruct Hstore' as [-> | ->]; [exact Hstore | by right].
  - intros r. rewrite Htrace, refreshPosts_app, elem_of_app.
    intros [Hold | Hnew]; [by apply Hposts|].
    apply Hextra in Hnew. destruct Hstore as [<- | Hnone]; congruence.
Qed.

Lemma kept_enter (v : option string) w w1 w' id config (pre : list Effect) :
  refreshTokenKept v w →
  localStorage w1 = localStorage w →
  trace w1 = trace w ++ pre →
  refreshPosts pre = [] →
  Enter id config w1 w' →
  refreshTokenKept v w'.
Proof.
  intros Hinv Hls Htr Hpre Henter.
  destruct Henter as [Ht | | token Hl | Hr | refresh Hr Hl | Hr Ht].
  - apply (kept_frame v w _ (pre ++ [Transmit id config]) Hinv); expose.
    + left. by rewrite Hls.
    + by rewrite Htr, <- app_assoc.
    + intros r. rewrite refreshPosts_app, Hpre. cbn. by intros ?%elem_of_nil.
  - apply (kept_frame v w _ (pre ++ [ConsoleError; Transmit id config]) Hinv);
      expose.
    + left. by rewrite Hls.
    + by rewrite Htr, <- !app_assoc.
    + intros r. rewrite refreshPosts_app, Hpre. cbn. by intros ?%elem_of_nil.
  - apply (kept_frame v w _
             (pre ++ [Transmit id (set_Authorization token config)]) Hinv);
      expose.
    + left. by rewrite Hls.
    + by rewrite Htr, <- app_assoc.
    + intros r. rewrite refreshPosts_app, Hpre. cbn. by intros ?%elem_of_nil.
  - apply (kept_frame v w _ pre Hinv); expose.
    + left. by rewrite Hls.
    + done.
    + intros r. rewrite Hpre. by intros ?%elem_of_nil.
  - apply (kept_frame v w _ (pre ++ [RefreshPost refresh]) Hinv); expose.
    + left. by rewrite Hls.
    + by rewrite Htr, <- app_assoc.
    + intros r. rewrite refreshPosts_app, Hpre. cbn.
      intros ->%list_elem_of_singleton. by rewrite <- Hls.
  - apply (kept_frame v w _ pre Hinv); expose.
    + left. by rewrite Hls.
    + done.
    + intros r. rewrite Hpre. by intros ?%elem_of_nil.
Qed.

Lemma kept_turn (v : option string) w e w' :
  refreshTokenKept v w → Turn persistJSON w e w' → refreshTokenKept v w'.
Proof.
  intros Hinv Hturn.
  destruct Hturn as
    [ id config now w' Ht Henter
    | id config a Ht | id config Ht
    | id config status a Ht | id config status Ht
    | id config token now Ht Hne
    | id config newToken now Ht Hf
    | id config status token now w' Ht Hne Henter
    | id config status newToken now Ht Hf
    | id config status Ht
    | id config status Ht Hguard
    | id config status refresh Ht H401 Hr Hl
    | id config status Ht H401 Hr Hl ].
  - apply (kept_enter v w w w' id config [] Hinv); auto.
    by rewrite app_nil_r.
  - apply (kept_frame v w _ [] Hinv); expose.
    + left. by rewrite lookup_insert_ne.
    + by rewrite app_nil_r.
    + by intros r ?%elem_of_nil.
  - apply (kept_frame v w _ [] Hinv); expose.
    + by left.
    + by rewrite app_nil_r.
    + by intros r ?%elem_of_nil.
  - apply (kept_frame v w _ [] Hinv); expose.
    + left. by rewrite lookup_insert_ne.
    + by rewrite app_nil_r.
    + by intros r ?%elem_of_nil.
  - apply (kept_frame v w _ [] Hinv); expose.
    + by left.
    + by rewrite app_nil_r.
    + by intros r ?%elem_of_nil.
  - apply (kept_frame v w _
             (drained token (refreshSubscribers w)
              ++ [Transmit id (set_Authorization token config)]) Hinv);
      expose.
    + by left.
    + by rewrite <- app_assoc.
    + intros r. rewrite refreshPosts_app, refreshPosts_drained. cbn.
      by intros ?%elem_of_nil.
  - apply (kept_frame v w _ [Navigate "/login"; Transmit id config] Hinv);
      expose.
    + right. by simplify_map_eq.
    + by rewrite <- app_assoc.
    + cbn. by intros r ?%elem_of_nil.
  - apply (kept_enter v w (with_trace (λ t, t ++ [Replay id]) w) w' id
             (set_Authorization token config) [Replay id] Hinv); auto.
  - apply (kept_frame v w _
             [Navigate "/login"; Settle id (Rejected status)] Hinv); expose.
    + right. by simplify_map_eq.
    + by rewrite <- app_assoc.
    + cbn. by intros r ?%elem_of_nil.
  - apply (kept_frame v w _ [Settle id (Fulfilled status)] Hinv); expose.
    + by left.
    + done.
    + cbn. by intros r ?%elem_of_nil.
  - apply (kept_frame v w _ [Settle id (Rejected status)] Hinv); expose.
    + by left.
    + done.
    + cbn. by intros r ?%elem_of_nil.
  - apply (kept_frame v w _ [RefreshPost refresh] Hinv); expose.
    + by left.
    + done.
    + cbn. by intros r ->%list_elem_of_singleton.
  - apply (kept_frame v w _ [] Hinv); expose.
    + by left.
    + by rewrite app_nil_r.
    + by intros r ?%elem_of_nil.
Qed.

(** X2: the interceptors never store a refresh token: on a page whose trace
    is empty, whatever the order of events, the stored refresh token is
    still the one the page started with, or it has been removed; and every
    POST to the refresh endpoint carried the token the page started with. *)
Theorem refresh_token_never_replaced w0 es w :
  trace w0 = [] →
  run jwtDecode persistJSON w0 es = Some w →
  (localStorage w !! "refresh_token" = localStorage w0 !! "refresh_token" ∨
   localStorage w !! "refresh_token" = None) ∧
  ∀ r, r ∈ refreshPosts (trace w) →
       localStorage w0 !! "refresh_token" = Some r.
Proof.
  intros Htr Hrun.
  assert (refreshTokenKept (localStorage w0 !! "refresh_token") w0) as Hinit.
  { split; [by left|]. rewrite Htr. by intros r ?%elem_of_nil. }
  clear Htr. revert Hinit Hrun.
  generalize (localStorage w0 !! "refresh_token") as v. intros v.
  revert w0. induction es as [|e es IH]; intros w0 Hinv Hrun.
  - cbn in Hrun. by simplify_eq.
  - cbn [run] in Hrun.
    destruct (step jwtDecode persistJSON w0 e) as [w1|] eqn:Hstep;
      [|discriminate].
    apply (IH w1); [|done].
    apply (kept_turn v w0 e w1 Hinv). by apply (step_turn jwtDecode).
Qed.

End RefreshToken.

(** * A request reaches the wire as it was issued *)

Section SameRequest.

Context {User : Type}.
Variable jwtDecode : string → completion Claims.
Variable persistJSON : option User → bool → string.

Implicit Types (w : @World User) (config : Config) (token : string).

Lemma sameRequest_Authorization c c' token :
  sameRequest c c' → sameRequest c (set_Authorization token c').
Proof.
  intros (Hu & Hm & Hd & Hh). repeat split; try done.
  intros k Hk. cbn. rewrite lookup_insert_ne by congruence. by apply Hh.
Qed.

Lemma sameRequest_retry c c' :
  sameRequest c c' → sameRequest c (set_retry c').
Proof. intros (Hu & Hm & Hd & Hh). by repeat split. Qed.

Lemma Transmit_drained i c token (l : list Callback) :
  Transmit i c ∈ drained token l →
  ∃ cb, cb ∈ l ∧ i = cb_id cb ∧ c = set_Authorization token (cb_config cb).
Proof.
  induction l as [|cb l IH]; [by intros ?%elem_of_nil|].
  change (drained token (cb :: l))
    with ([Invoke (cb_id cb) token;
           Transmit (cb_id cb) (set_Authorization token (cb_config cb))]
          ++ drained token l).
  rewrite elem_of_app. intros [Hhere | Hlater].
  - apply elem_of_cons in Hhere as [Heq | Hhere]; [discriminate|].
    apply list_elem_of_singleton in Hhere. injection Hhere as -> ->.
    exists cb. split; [left | done].
  - destruct (IH Hlater) as (cb' & Hin & Hid & Hc).
    exists cb'. split; [by right | done].
Qed.

Lemma requests_frame (origin : nat → Config) w w' id t (extra : list Effect) :
  requestsKept origin w →
  tasks w' = <[id := t]> (tasks w) →
  (∀ c, configOf (Some t) = Some c → sameRequest (origin id) c) →
  trace w' = trace w ++ extra →
  (∀ i c, Transmit i c ∈ extra → sameRequest (origin i) c) →
  (∀ cb, cb ∈ refreshSubscribers w' →
         cb ∈ refreshSubscribers w ∨
         sameRequest (origin (cb_id cb)) (cb_config cb)) →
  requestsKept origin w'.
Proof.
  intros (Htasks & Hsubs & Hwire) Ht Hnew Htrace Hextra Hsubs'.
  split; [|split].
  - intros i c. rewrite Ht. destruct (decide (i = id)) as [->|Hne].
    + rewrite lookup_insert_eq. apply Hnew.
    + rewrite lookup_insert_ne by congruence. apply Htasks.
  - intros cb Hin. destruct (Hsubs' cb Hin) as [Hold | Hok]; auto.
  - intros i c. rewrite Htrace, elem_of_app. intros [Hold | Hin]; auto.
Qed.

Lemma requests_enter (origin : nat → Config) w w1 w' id config
    (pre : list Effect) :
  requestsKept origin w →
  tasks w1 = tasks w →
  refreshSubscribers w1 = refreshSubscribers w →
  trace w1 = trace w ++ pre →
  (∀ i c, Transmit i c ∉ pre) →
  sameRequest (origin id) config →
  Enter id config w1 w' →
  requestsKept origin w'.
Proof.
  intros Hinv Hta Hsu Htr Hpre Hsame Henter.
  assert (∀ (l : list Effect) c,
            sameRequest (origin id) c →
            ∀ i c', Transmit i c' ∈ pre ++ l ++ [Transmit id c] →
                    (∀ j d, Transmit j d ∉ l) →
                    sameRequest (origin i) c') as Hwire.
  { intros l c Hc i c'. rewrite !elem_of_app.
    intros [Hin | [Hin | Hin]] Hl.
    - by destruct (Hpre i c').
    - by destruct (Hl i c').
    - apply list_elem_of_singleton in Hin. by injection Hin as -> ->. }
  destruct Henter as [Ht | | token Hl | Hr | refresh Hr Hl | Hr Ht].
  - apply (requests_frame origin w _ id (InFlight config)
             (pre ++ [] ++ [Transmit id config]) Hinv); expose.
    + by rewrite Hta.
    + by intros c [= <-].
    + by rewrite Htr, <- app_assoc.
    + intros i c Hin. apply (Hwire [] config Hsame i c Hin).
      by intros j d ?%elem_of_nil.
    + intros cb. rewrite Hsu. by left.
  - apply (requests_frame origin w _ id (InFlight config)
             (pre ++ [ConsoleError] ++ [Transmit id config]) Hinv); expose.
    + by rewrite Hta.
    + by intros c [= <-].
    + by rewrite Htr, <- !app_assoc.
    + intros i c Hin. apply (Hwire [ConsoleError] config Hsame i c Hin).
      intros j d Hd. apply list_elem_of_singleton in Hd. discriminate.
    + intros cb. rewrite Hsu. by left.
  - pose proof (sameRequest_Authorization _ _ token Hsame) as Hsame'.
    apply (requests_frame origin w _ id
             (InFlight (set_Authorization token config))
             (pre ++ [] ++ [Transmit id (set_Authorization token config)])
             Hinv); expose.
    + by rewrite Hta.
    + by intros c [= <-].
    + by rewrite Htr, <- app_assoc.
    + intros i c Hin. apply (Hwire [] _ Hsame' i c Hin).
      by intros j d ?%elem_of_nil.
    + intros cb. rewrite Hsu. by left.
  - apply (requests_frame origin w _ id Subscribed pre Hinv); expose.
    + by rewrite Hta.
    + by intros c [=].
    + done.
    + intros i c Hin. by destruct (Hpre i c).
    + intros cb. rewrite Hsu, elem_of_app.
      intros [Hold | ->%list_elem_of_singleton]; [by left | by right].
  - apply (requests_frame origin w _ id (OutAwaitPost config)
             (pre ++ [RefreshPost refresh]) Hinv); expose.
    + by rewrite Hta.
    + by intros c [= <-].
    + by rewrite Htr, <- app_assoc.
    + intros i c. rewrite elem_of_app. intros [Hin | Hin].
      * by destruct (Hpre i c).
      * apply list_elem_of_singleton in Hin. discriminate.
    + intros cb. rewrite Hsu. by left.
  - apply (requests_frame origin w _ id (OutAwaitRefresh config None)
             pre Hinv); expose.
    + by rewrite Hta.
    + by intros c [= <-].
    + done.
    + intros i c Hin. by destruct (Hpre i c).
    + intros cb. rewrite Hsu. by left.
Qed.

Lemma requests_turn (origin : nat → Config) w e w' :
  requestsKept origin w →
  (∀ id c now, e = Issue id c now → sameRequest (origin id) c) →
  Turn persistJSON w e w' →
  requestsKept origin w'.
Proof.
  intros Hinv Hissue Hturn.
  pose proof Hinv as (Htasks & Hsubs & Hwire).
  assert (∀ id c, configOf (tasks w !! id) = Some c →
                  sameRequest (origin id) c) as Hheld by exact Htasks.
  destruct Hturn as
    [ id config now w' Ht Henter
    | id config a Ht | id config Ht
    | id config status a Ht | id config status Ht
    | id config token now Ht Hne
    | id config newToken now Ht Hf
    | id config status token now w' Ht Hne Henter
    | id config status newToken now Ht Hf
    | id config status Ht
    | id config status Ht Hguard
    | id config status refresh Ht H401 Hr Hl
    | id config status Ht H401 Hr Hl ];
    try (assert (sameRequest (origin id) config) as Hsame
           by (apply Hheld; rewrite Ht; reflexivity)).
  - apply (requests_enter origin w w w' id config [] Hinv); auto.
    + by rewrite app_nil_r.
    + by intros i c ?%elem_of_nil.
    + by apply (Hissue id config now).
  - apply (requests_frame origin w _ id (OutAwaitRefresh config (Some a)) []
             Hinv); expose; auto.
    + by intros c [= <-].
    + by rewrite app_nil_r.
    + by intros i c ?%elem_of_nil.
  - apply (requests_frame origin w _ id (OutAwaitRefresh config None) []
             Hinv); expose; auto.
    + by intros c [= <-].
    + by rewrite app_nil_r.
    + by intros i c ?%elem_of_nil.
  - apply (requests_frame origin w _ id
             (InAwaitRefresh config status (Some a)) [] Hinv); expose; auto.
    + by intros c [= <-].
    + by rewrite app_nil_r.
    + by intros i c ?%elem_of_nil.
  - apply (requests_frame origin w _ id (InAwaitRefresh config status None) []
             Hinv); expose; auto.
    + by intros c [= <-].
    + by rewrite app_nil_r.
    + by intros i c ?%elem_of_nil.
  - (* the drain *)
    expose. split; [|split]; expose.
    + intros i c. destruct (decide (i = id)) as [->|Hne'].
      * rewrite lookup_insert_eq. intros [= <-].
        by apply sameRequest_Authorization.
      * rewrite lookup_insert_ne by congruence.
        destruct (drainTasks_lookup token (refreshSubscribers w) (tasks w) i)
          as [Heq | (cb & Hin & Hid & Heq)]; rewrite Heq; [apply Hheld|].
        intros [= <-]. rewrite <- Hid.
        by apply sameRequest_Authorization, Hsubs.
    + by intros cb ?%elem_of_nil.
    + intros i c. rewrite !elem_of_app. intros [[Hold | Hin] | Hin].
      * by apply Hwire.
      * apply Transmit_drained in Hin as (cb & Hin & -> & ->).
        by apply sameRequest_Authorization, Hsubs.
      * apply list_elem_of_singleton in Hin. injection Hin as -> ->.
        by apply sameRequest_Authorization.
  - apply (requests_frame origin w _ id (InFlight config)
             [Navigate "/login"; Transmit id config] Hinv); expose; auto.
    + by intros c [= <-].
    + by rewrite <- app_assoc.
    + intros i c Hin. apply elem_of_cons in Hin as [Heq | Hin]; [discriminate|].
      apply list_elem_of_singleton in Hin. by injection Hin as -> ->.
  - apply (requests_enter origin w (with_trace (λ t, t ++ [Replay id]) w) w'
             id (set_Authorization token config) [Replay id] Hinv); auto.
    + intros i c Hin. apply list_elem_of_singleton in Hin. discriminate.
    + by apply sameRequest_Authorization.
  - apply (requests_frame origin w _ id (Settled (Rejected status))
             [Navigate "/login"; Settle id (Rejected status)] Hinv);
      expose; auto.
    + by intros c [=].
    + by rewrite <- app_assoc.
    + intros i c Hin. apply elem_of_cons in Hin as [Heq | Hin]; [discriminate|].
      apply list_elem_of_singleton in Hin. discriminate.
  - apply (requests_frame origin w _ id (Settled (Fulfilled status))
             [Settle id (Fulfilled status)] Hinv); expose; auto.
    + by intros c [=].
    + intros i c Hin. apply list_elem_of_singleton in Hin. discriminate.
  - apply (requests_frame origin w _ id (Settled (Rejected status))
             [Settle id (Rejected status)] Hinv); expose; auto.
    + by intros c [=].
    + intros i c Hin. apply list_elem_of_singleton in Hin. discriminate.
  - apply (requests_frame origin w _ id (InAwaitPost (set_retry config) status)
             [RefreshPost refresh] Hinv); expose; auto.
    + intros c [= <-]. by apply sameRequest_retry.
    + intros i c Hin. apply list_elem_of_singleton in Hin. discriminate.
  - apply (requests_frame origin w _ id
             (InAwaitRefresh (set_retry config) status None) [] Hinv);
      expose; auto.
    + intros c [= <-]. by apply sameRequest_retry.
    + by rewrite app_nil_r.
    + by intros i c ?%elem_of_nil.
Qed.

(** X3: the interceptors change nothing of a request but its
    [Authorization] header and its [_retry] mark.  On a page that starts
    with no request under way, if every request [id] is issued with a
    config that agrees with [origin id] on url, method, body and every
    other header, then so does every config that goes on the wire for
    [id]: the first transmission, the one a subscriber triggers and the
    replay after a 401. *)
Theorem request_reaches_wire_unchanged (origin : nat → Config) w0 es w :
  tasks w0 = ∅ → refreshSubscribers w0 = [] → trace w0 = [] →
  run jwtDecode persistJSON w0 es = Some w →
  (∀ id c now, Issue id c now ∈ es → sameRequest (origin id) c) →
  ∀ id c, Transmit id c ∈ trace w → sameRequest (origin id) c.
Proof.
  intros Ht Hs Htr Hrun Hissued.
  assert (requestsKept origin w0) as Hinit.
  { split; [|split].
    - intros i c. by rewrite Ht, lookup_empty.
    - rewrite Hs. by intros cb ?%elem_of_nil.
    - rewrite Htr. by intros i c ?%elem_of_nil. }
  clear Ht Hs Htr.
  assert (requestsKept origin w) as (_ & _ & Hwire); [|exact Hwire].
  revert w0 Hinit Hrun Hissued.
  induction es as [|e es IH]; intros w0 Hinit Hrun Hissued.
  - cbn in Hrun. by simplify_eq.
  - cbn [run] in Hrun.
    destruct (step jwtDecode persistJSON w0 e) as [w1|] eqn:Hstep;
      [|discriminate].
    apply (IH w1); [|done|].
    + apply (requests_turn origin w0 e w1 Hinit);
        [|by apply (step_turn jwtDecode)].
      intros id c now ->. apply (Hissued id c now). left.
    + intros id c now Hin. apply (Hissued id c now). by right.
Qed.

End SameRequest.

(** * No request goes on the wire more than twice *)

Section Wire.

Context {User : Type}.
Variable jwtDecode : string → completion Claims.
Variable persistJSON : option User → bool → string.

Implicit Types (w : @World User) (config : Config) (token : string).

Lemma sent_app id (t l : list Effect) :
  sent id (t ++ l) = sent id t + sent id l.
Proof. unfold sent, transmitted. by rewrite omap_app, length_app. Qed.

Lemma sent_Transmit_self id c : sent id [Transmit id c] = 1.
Proof. cbv [sent transmitted omap list_omap]. by case_decide. Qed.

Lemma sent_Transmit_other i id c : i ≠ id → sent i [Transmit id c] = 0.
Proof. intros Hne. cbv [sent transmitted omap list_omap]. by case_decide. Qed.

(** Counts transmissions and replays in a trace extended by effects that
    are written out. *)
Ltac count :=
  rewrite ?sent_app, ?replays_app;
  repeat match goal with
         | |- context [sent ?i [?e]] =>
             lazymatch e with
             | Transmit _ _ => fail
             | _ => change (sent i [e]) with 0
             end
         | |- context [replays ?i [?e]] =>
             lazymatch e with
             | Replay _ => fail
             | _ => change (replays i [e]) with 0
             end
         end;
  rewrite ?sent_Transmit_self, ?replays_self;
  rewrite ?sent_Transmit_other, ?replays_other by congruence;
  try change (sent _ []) with 0; try change (replays _ []) with 0.

Lemma sent_drained_notin i token (l : list Callback) :
  i ∉ map cb_id l → sent i (drained token l) = 0.
Proof.
  induction l as [|cb l IH]; [reflexivity|]. intros Hnotin.
  change (drained token (cb :: l))
    with ([Invoke (cb_id cb) token]
          ++ [Transmit (cb_id cb) (set_Authorization token (cb_config cb))]
          ++ drained token l).
  cbn [map] in Hnotin. apply not_elem_of_cons in Hnotin as [Hne Hnotin].
  count. rewrite IH by done. reflexivity.
Qed.

Lemma sent_drained_in i token (l : list Callback) :
  NoDup (map cb_id l) → i ∈ map cb_id l → sent i (drained token l) = 1.
Proof.
  induction l as [|cb l IH]; [by intros _ ?%elem_of_nil|].
  cbn [map]. intros [Hnotin Hdup]%NoDup_cons Hin.
  change (drained token (cb :: l))
    with ([Invoke (cb_id cb) token]
          ++ [Transmit (cb_id cb) (set_Authorization token (cb_config cb))]
          ++ drained token l).
  apply elem_of_cons in Hin as [-> | Hin].
  - count. by rewrite sent_drained_notin.
  - assert (i ≠ cb_id cb) as Hne by (intros ->; done).
    count. by rewrite IH.
Qed.

Lemma drainTasks_notin token (l : list Callback) (m : gmap nat Task) i :
  i ∉ map cb_id l → drainTasks token l m !! i = m !! i.
Proof.
  revert m. induction l as [|cb l IH]; intros m Hnotin; [reflexivity|].
  cbn [map] in Hnotin. apply not_elem_of_cons in Hnotin as [Hne Hnotin].
  change (drainTasks token (cb :: l) m)
    with (drainTasks token l
            (<[cb_id cb :=
                 InFlight (set_Authorization token (cb_config cb))]> m)).
  rewrite IH by done. by rewrite lookup_insert_ne.
Qed.

Lemma drainTasks_in token (l : list Callback) (m : gmap nat Task) i :
  i ∈ map cb_id l → ∃ c, drainTasks token l m !! i = Some (InFlight c).
Proof.
  revert m. induction l as [|cb l IH]; intros m; [by intros ?%elem_of_nil|].
  cbn [map]. intros Hin.
  change (drainTasks token (cb :: l) m)
    with (drainTasks token l
            (<[cb_id cb :=
                 InFlight (set_Authorization token (cb_config cb))]> m)).
  destruct (decide (i ∈ map cb_id l)) as [Hl | Hl]; [by apply IH|].
  apply elem_of_cons in Hin as [-> | Hin]; [|done].
  rewrite drainTasks_notin by done. rewrite lookup_insert_eq. eauto.
Qed.

Lemma wire_frame w w' id t (extra : list Effect) :
  wireInvariant w →
  tasks w' = <[id := t]> (tasks w) →
  tasks w !! id ≠ Some Subscribed →
  trace w' = trace w ++ extra →
  (∀ i, i ≠ id → sent i extra = 0 ∧ replays i extra = 0) →
  (if unsent (Some t)
   then sent id (trace w') = replays id (trace w')
   else sent id (trace w') = S (replays id (trace w'))) →
  (refreshSubscribers w' = refreshSubscribers w ∨
   (t = Subscribed ∧
    ∃ c, refreshSubscribers w' = refreshSubscribers w ++ [mkCallback id c])) →
  wireInvariant w'.
Proof.
  intros (Hphase & Hlink & Hdup) Htasks Hnot Htrace Hextra Ht Hsubs.
  assert (id ∉ map cb_id (refreshSubscribers w)) as Hfree.
  { intros (cb & -> & Hin)%list_elem_of_fmap. by apply Hnot, Hlink. }
  split; [|split].
  - intros i. rewrite Htasks. destruct (decide (i = id)) as [->|Hne].
    + rewrite lookup_insert_eq. exact Ht.
    + rewrite lookup_insert_ne by congruence.
      destruct (Hextra i Hne) as [Hs Hr].
      rewrite Htrace, sent_app, replays_app, Hs, Hr, !Nat.add_0_r.
      apply Hphase.
  - intros cb Hin. rewrite Htasks.
    destruct Hsubs as [Hsame | (-> & c & Happ)].
    + rewrite Hsame in Hin. rewrite lookup_insert_ne; [by apply Hlink|].
      intros ->. apply Hfree. apply list_elem_of_fmap. by exists cb.
    + rewrite Happ in Hin. apply elem_of_app in Hin as [Hin | Hin].
      * rewrite lookup_insert_ne; [by apply Hlink|].
        intros ->. apply Hfree. apply list_elem_of_fmap. by exists cb.
      * apply list_elem_of_singleton in Hin as ->. cbn.
        by rewrite lookup_insert_eq.
  - destruct Hsubs as [-> | (-> & c & ->)]; [done|].
    rewrite map_app. cbn. apply NoDup_app. split; [done|]. split.
    + intros i Hi ->%list_elem_of_singleton. by apply Hfree.
    + apply NoDup_singleton.
Qed.

Lemma wire_enter w w1 w' id config (pre : list Effect) :
  wireInvariant w →
  tasks w1 = tasks w →
  refreshSubscribers w1 = refreshSubscribers w →
  trace w1 = trace w ++ pre →
  (∀ i, i ≠ id → sent i pre = 0 ∧ replays i pre = 0) →
  tasks w !! id ≠ Some Subscribed →
  sent id (trace w1) = replays id (trace w1) →
  Enter id config w1 w' →
  wireInvariant w'.
Proof.
  intros Hinv Hta Hsu Htr Hpre Hnot Hphase Henter.
  destruct Henter as [Ht | | token Hl | Hr | refresh Hr Hl | Hr Ht].
  - apply (wire_frame w _ id (InFlight config)
             (pre ++ [Transmit id config]) Hinv); expose; auto.
    + by rewrite Hta.
    + by rewrite Htr, <- app_assoc.
    + intros i Hne. destruct (Hpre i Hne) as [Hs0 Hr0].
      split; count; rewrite ?Hs0, ?Hr0; reflexivity.
    + cbn. count. rewrite Hphase. lia.
  - apply (wire_frame w _ id (InFlight config)
             (pre ++ [ConsoleError] ++ [Transmit id config]) Hinv);
      expose; auto.
    + by rewrite Hta.
    + by rewrite Htr, <- !app_assoc.
    + intros i Hne. destruct (Hpre i Hne) as [Hs0 Hr0].
      split; count; rewrite ?Hs0, ?Hr0; reflexivity.
    + cbn. count. rewrite Hphase. lia.
  - apply (wire_frame w _ id (InFlight (set_Authorization token config))
             (pre ++ [Transmit id (set_Authorization token config)]) Hinv);
      expose; auto.
    + by rewrite Hta.
    + by rewrite Htr, <- app_assoc.
    + intros i Hne. destruct (Hpre i Hne) as [Hs0 Hr0].
      split; count; rewrite ?Hs0, ?Hr0; reflexivity.
    + cbn. count. rewrite Hphase. lia.
  - apply (wire_frame w _ id Subscribed pre Hinv); expose; auto.
    + by rewrite Hta.
    + right. split; [done|]. exists config. by rewrite Hsu.
  - apply (wire_frame w _ id (OutAwaitPost config)
             (pre ++ [RefreshPost refresh]) Hinv); expose; auto.
    + by rewrite Hta.
    + by rewrite Htr, <- app_assoc.
    + intros i Hne. destruct (Hpre i Hne) as [Hs0 Hr0].
      split; count; rewrite ?Hs0, ?Hr0; reflexivity.
    + cbn. count. rewrite Hphase. lia.
  - apply (wire_frame w _ id (OutAwaitRefresh config None) pre Hinv);
      expose; auto.
    by rewrite Hta.
Qed.

Lemma wire_turn w e w' :
  wireInvariant w → Turn persistJSON w e w' → wireInvariant w'.
Proof.
  intros Hinv Hturn.
  pose proof Hinv as (Hphase & Hlink & Hdup).
  destruct Hturn as
    [ id config now w' Ht Henter
    | id config a Ht | id config Ht
    | id config status a Ht | id config status Ht
    | id config token now Ht Hne
    | id config newToken now Ht Hf
    | id config status token now w' Ht Hne Henter
    | id config status newToken now Ht Hf
    | id config status Ht
    | id config status Ht Hguard
    | id config status refresh Ht H401 Hr Hl
    | id config status Ht H401 Hr Hl ];
    pose proof (Hphase id) as Hid; rewrite Ht in Hid; cbn [unsent] in Hid;
    assert (tasks w !! id ≠ Some Subscribed) as Hnot by (by rewrite Ht).
  - apply (wire_enter w w w' id config [] Hinv); auto.
    by rewrite app_nil_r.
  - apply (wire_frame w _ id (OutAwaitRefresh config (Some a)) [] Hinv);
      expose; auto. by rewrite app_nil_r.
  - apply (wire_frame w _ id (OutAwaitRefresh config None) [] Hinv);
      expose; auto. by rewrite app_nil_r.
  - apply (wire_frame w _ id (InAwaitRefresh config status (Some a)) [] Hinv);
      expose; auto. by rewrite app_nil_r.
  - apply (wire_frame w _ id (InAwaitRefresh config status None) [] Hinv);
      expose; auto. by rewrite app_nil_r.
  - (* the drain *)
    assert (id ∉ map cb_id (refreshSubscribers w)) as Hfree.
    { intros (cb & -> & Hin)%list_elem_of_fmap. by apply Hnot, Hlink. }
    split; [|split]; expose.
    + intros i. destruct (decide (i = id)) as [->|Hne'].
      * rewrite lookup_insert_eq. cbn. count.
        rewrite sent_drained_notin, replays_drained by done. lia.
      * rewrite lookup_insert_ne by congruence.
        destruct (decide (i ∈ map cb_id (refreshSubscribers w))) as [Hin | Hout].
        -- destruct (drainTasks_in token _ (tasks w) i Hin) as [c ->]. cbn.
           count. rewrite (sent_drained_in i token _ Hdup Hin), replays_drained.
           pose proof (Hphase i) as Hi.
           apply list_elem_of_fmap in Hin as (cb & -> & Hin).
           rewrite (Hlink cb Hin) in Hi. cbn in Hi. lia.
        -- rewrite drainTasks_notin by done. count.
           rewrite sent_drained_notin, replays_drained by done.
           rewrite !Nat.add_0_r. apply Hphase.
    + by intros cb ?%elem_of_nil.
    + apply NoDup_nil_2.
  - apply (wire_frame w _ id (InFlight config)
             [Navigate "/login"; Transmit id config] Hinv); expose; auto.
    + by rewrite <- app_assoc.
    + intros i Hne'. split; [|reflexivity].
      change [Navigate "/login"; Transmit id config]
        with ([Navigate "/login"] ++ [Transmit id config]).
      by count.
    + cbn. count. lia.
  - apply (wire_enter w (with_trace (λ t, t ++ [Replay id]) w) w' id
             (set_Authorization token config) [Replay id] Hinv); auto.
    + intros i Hne'. split; [reflexivity | by count].
    + expose. count. lia.
  - apply (wire_frame w _ id (Settled (Rejected status))
             [Navigate "/login"; Settle id (Rejected status)] Hinv);
      expose; auto.
    + by rewrite <- app_assoc.
    + cbn. count. lia.
  - apply (wire_frame w _ id (Settled (Fulfilled status))
             [Settle id (Fulfilled status)] Hinv); expose; auto.
    cbn. count. lia.
  - apply (wire_frame w _ id (Settled (Rejected status))
             [Settle id (Rejected status)] Hinv); expose; auto.
    cbn. count. lia.
  - apply (wire_frame w _ id (InAwaitPost (set_retry config) status)
             [RefreshPost refresh] Hinv); expose; auto.
    cbn. count. lia.
  - apply (wire_frame w _ id (InAwaitRefresh (set_retry config) status None)
             [] Hinv); expose; auto.
    by rewrite app_nil_r.
Qed.

Lemma wire_run w es w' :
  wireInvariant w →
  run jwtDecode persistJSON w es = Some w' →
  wireInvariant w'.
Proof.
  revert w. induction es as [|e es IH]; intros w Hinv Hrun.
  - cbn in Hrun. by simplify_eq.
  - cbn [run] in Hrun.
    destruct (step jwtDecode persistJSON w e) as [w1|] eqn:Hstep;
      [|discriminate].
    apply (IH w1); [|done].
    apply (wire_turn w e w1 Hinv). by apply (step_turn jwtDecode).
Qed.

Lemma wireInvariant_init w :
  tasks w = ∅ → refreshSubscribers w = [] → trace w = [] → wireInvariant w.
Proof.
  intros Ht Hs Htr. split; [|split].
  - intros i. by rewrite Ht, Htr, lookup_empty.
  - rewrite Hs. by intros cb ?%elem_of_nil.
  - rewrite Hs. apply NoDup_nil_2.
Qed.

(** X4: on a page that starts with no request under way, whatever the
    order of events, no request goes on the wire more than twice: once as
    issued and at most once more as the replay after a 401. *)
Theorem sent_at_most_twice w0 es w id :
  tasks w0 = ∅ → refreshSubscribers w0 = [] → trace w0 = [] →
  run jwtDecode persistJSON w0 es = Some w →
  sent id (trace w) ≤ 2.
Proof.
  intros Ht Hs Htr Hrun.
  pose proof (wire_run w0 es w (wireInvariant_init w0 Ht Hs Htr) Hrun)
    as (Hphase & _ & _).
  pose proof (run_retry jwtDecode persistJSON _ w0 es w
                (retryInvariant_init w0 Ht Hs Htr) Hrun id) as (Hle & _ & _).
  specialize (Hphase id). destruct (unsent (tasks w !! id)); lia.
Qed.

(** X5: on such a page, every callback on the subscriber list belongs to a
    request that is suspended in the request interceptor, and no request
    has two callbacks on the list. *)
Theorem one_callback_per_waiting_request w0 es w :
  tasks w0 = ∅ → refreshSubscribers w0 = [] → trace w0 = [] →
  run jwtDecode persistJSON w0 es = Some w →
  (∀ cb, cb ∈ refreshSubscribers w → tasks w !! cb_id cb = Some Subscribed) ∧
  NoDup (map cb_id (refreshSubscribers w)).
Proof.
  intros Ht Hs Htr Hrun.
  pose proof (wire_run w0 es w (wireInvariant_init w0 Ht Hs Htr) Hrun)
    as (_ & Hlink & Hdup).
  by split.
Qed.

End Wire.

(** * More turns of the pipeline *)

Section Pipeline.

Context {User : Type}.
Variable jwtDecode : string → completion Claims.
Variable persistJSON : option User → bool → string.

Implicit Types (w : @World User) (config : Config) (token : string).

(** X6: a 401 for a request not yet retried, on a page that holds no
    refresh token (a rejected login, say): the response interceptor sends
    no POST; when it resumes it removes the access token, resets the auth
    store, sends the page to [/login] and rejects the caller's promise with
    the 401. *)
Theorem rejected_without_refresh_token w id config now :
  tasks w !! id = Some (InFlight config) →
  _retry config = false →
  truthy (localStorage w !! "refresh_token") = false →
  ∃ w1 w2,
    step jwtDecode persistJSON w (Response id (Failure (Some 401))) = Some w1 ∧
    trace w1 = trace w ∧
    step jwtDecode persistJSON w1 (Resume id now) = Some w2 ∧
    trace w2 = trace w ++ [Navigate "/login";
                           Settle id (Rejected (Some 401))] ∧
    tasks w2 !! id = Some (Settled (Rejected (Some 401))) ∧
    localStorage w2 !! "access_token" = None ∧
    authStore w2 = mkAuthState None None false (isLoading (authStore w)) ∧
    location_href w2 = "/login".
Proof.
  intros Ht Hr Hnone.
  assert (step jwtDecode persistJSON w (Response id (Failure (Some 401)))
          = Some (with_tasks
                    (insert id (InAwaitRefresh (set_retry config)
                                  (Some 401) None)) w)) as Hstep1.
  { cbn [step]. rewrite Ht. cbv [responseInterceptor_enter].
    rewrite Hr. cbn [is401 negb andb]. cbv [exec bind].
    by rewrite (refreshToken_request_absent w Hnone). }
  eexists _, _. split; [exact Hstep1|]. split; [reflexivity|].
  split.
  { cbn [step tasks with_tasks]. rewrite lookup_insert_eq. reflexivity. }
  cbv [responseInterceptor_resume truthy settle setTask exec logout set
       navigate setItem removeItem emit bind ret gets modify].
  cbn. rewrite <- app_assoc. repeat split; by simplify_map_eq.
Qed.


Lemma transmitted_app id (t l : list Effect) :
  transmitted id (t ++ l) = transmitted id t ++ transmitted id l.
Proof. apply omap_app. Qed.

Lemma transmitted_self id c : transmitted id [Transmit id c] = [c].
Proof. cbv [transmitted omap list_omap]. by case_decide. Qed.

Lemma transmitted_other i id c : i ≠ id → transmitted i [Transmit id c] = [].
Proof. intros Hne. cbv [transmitted omap list_omap]. by case_decide. Qed.

Lemma transmitted_waiters_notin i token (l : list (nat * Config * Z)) :
  i ∉ map (λ r, r.1.1) l →
  transmitted i (drained token (map waiter l)) = [].
Proof.
  induction l as [|r l IH]; [reflexivity|]. cbn [map].
  intros [Hne Hnotin]%not_elem_of_cons.
  change (drained token (waiter r :: map waiter l))
    with ([Invoke r.1.1 token]
          ++ [Transmit r.1.1 (set_Authorization token r.1.2)]
          ++ drained token (map waiter l)).
  rewrite !transmitted_app, transmitted_other, IH by done. reflexivity.
Qed.

Lemma transmitted_waiters_in (r : nat * Config * Z) token
    (l : list (nat * Config * Z)) :
  NoDup (map (λ r, r.1.1) l) → r ∈ l →
  transmitted r.1.1 (drained token (map waiter l))
  = [set_Authorization token r.1.2].
Proof.
  induction l as [|r' l IH]; [by intros _ ?%elem_of_nil|]. cbn [map].
  intros [Hnotin Hdup]%NoDup_cons Hin.
  change (drained token (waiter r' :: map waiter l))
    with ([Invoke r'.1.1 token]
          ++ [Transmit r'.1.1 (set_Authorization token r'.1.2)]
          ++ drained token (map waiter l)).
  rewrite !transmitted_app.
  apply elem_of_cons in Hin as [-> | Hin].
  - rewrite transmitted_self, transmitted_waiters_notin by done. reflexivity.
  - assert (r.1.1 ≠ r'.1.1) as Hne.
    { intros Heq. apply Hnotin. rewrite <- Heq.
      apply list_elem_of_fmap. by exists r. }
    rewrite transmitted_other, IH by done. reflexivity.
Qed.

(** X8: requests issued with an expired token while no renewal is in
    flight share one renewal.  The first sends the only POST; when it
    answers with a token and the first request resumes, every one of the
    requests goes on the wire exactly once, carrying the new token. *)
Theorem expired_requests_share_one_renewal w (first : nat * Config * Z)
    (others : list (nat * Config * Z)) token (e : Q) refresh access now :
  isRefreshing w = false →
  refreshSubscribers w = [] →
  localStorage w !! "access_token" = Some token →
  token ≠ EmptyString →
  jwtDecode token = Normal (mkClaims (Some e)) →
  Forall (λ r, (e < seconds r.2)%Q) (first :: others) →
  localStorage w !! "refresh_token" = Some refresh →
  refresh ≠ EmptyString →
  access ≠ EmptyString →
  NoDup (map (λ r, r.1.1) (first :: others)) →
  Forall (λ r, tasks w !! r.1.1 = None) (first :: others) →
  ∃ w', run jwtDecode persistJSON w
          (map issue (first :: others)
           ++ [PostReply first.1.1 (Normal access); Resume first.1.1 now])
        = Some w' ∧
    refreshPosts (trace w') = refreshPosts (trace w) ++ [refresh] ∧
    ∀ r, r ∈ first :: others →
         transmitted r.1.1 (trace w')
         = transmitted r.1.1 (trace w) ++ [set_Authorization access r.1.2].
Proof.
  intros Hr Hnil Hl Hne Hd Hlt Hlr Hner Hnea Hdup Hfresh.
  destruct (outbound_single_flight jwtDecode persistJSON w first others token
              e refresh access now Hr Hnil Hl Hne Hd Hlt Hlr Hner Hnea Hdup
              Hfresh)
    as (w' & Hrun & Htrace & Hposts & _).
  exists w'. split; [exact Hrun|]. split; [exact Hposts|].
  cbn [map] in Hdup. apply NoDup_cons in Hdup as [Hnotin Hdup].
  intros r Hin. rewrite Htrace, !transmitted_app.
  change (transmitted r.1.1 [RefreshPost refresh]) with (@nil Config).
  apply elem_of_cons in Hin as [-> | Hin].
  - rewrite transmitted_waiters_notin, transmitted_self by done. reflexivity.
  - assert (r.1.1 ≠ first.1.1) as Hne'.
    { intros Heq. apply Hnotin. rewrite <- Heq.
      apply list_elem_of_fmap. by exists r. }
    rewrite (transmitted_waiters_in r access others Hdup Hin),
      transmitted_other by done.
    by rewrite app_nil_r.
Qed.

End Pipeline.

(** * The auth store *)

Section Store.

Context {User AuthResponse : Type}.
Variable jwtDecode : string → completion Claims.
Variable persistJSON : option User → bool → string.
Variable response_access : AuthResponse → string.
Variable response_refresh : AuthResponse → string.
Variable response_user : AuthResponse → User.

Implicit Types (w : @World User) (response : AuthResponse).

Local Abbreviation loginSettled :=
  (login_settle persistJSON AuthResponse response_access response_refresh
     response_user).
Local Abbreviation registerSettled :=
  (register_settle persistJSON AuthResponse response_access response_refresh
     response_user).
Local Abbreviation verifyPhoneSettled :=
  (verifyPhone_settle persistJSON AuthResponse response_access
     response_refresh response_user).
Local Abbreviation acted :=
  (act persistJSON AuthResponse response_access response_refresh
     response_user).
Local Abbreviation sessionOf :=
  (session jwtDecode persistJSON AuthResponse response_access
     response_refresh response_user).

(** Unfolds a store action down to the fields of the world. *)
Ltac store :=
  cbv [act login_settle register_settle
       verifyPhone_settle login_begin register_begin
       verifyPhone_begin setUser updateUser_settle try_finally
       exec logout set setItem removeItem lift bind ret gets modify];
  cbn [localStorage isRefreshing refreshSubscribers authStore location_href
       tasks trace with_localStorage with_isRefreshing
       with_refreshSubscribers with_authStore with_location_href
       with_tasks with_trace fst snd user tokens isAuthenticated isLoading].

(** X9: when the API call of [login], [register] or [verifyPhone] succeeds,
    the action returns normally with both tokens of the response under
    their localStorage keys, the response as [user], the tokens in the
    store, [isAuthenticated] true and [isLoading] false; the copy under
    ['auth-storage'] holds the new user, and the request pipeline is left
    alone. *)
Theorem sign_in_stores_session
    (settle : completion AuthResponse → M User unit) response w :
  settle = loginSettled ∨ settle = registerSettled ∨
  settle = verifyPhoneSettled →
  settle (Normal response) w = (exec (settle (Normal response)) w, Normal tt) ∧
  localStorage (exec (settle (Normal response)) w) !! "access_token"
    = Some (response_access response) ∧
  localStorage (exec (settle (Normal response)) w) !! "refresh_token"
    = Some (response_refresh response) ∧
  authStore (exec (settle (Normal response)) w)
    = mkAuthState (Some (response_user response))
        (Some (mkAuthTokens (response_access response)
                 (response_refresh response)))
        true false ∧
  localStorage (exec (settle (Normal response)) w) !! "auth-storage"
    = Some (persistJSON (Some (response_user response)) true) ∧
  tasks (exec (settle (Normal response)) w) = tasks w ∧
  trace (exec (settle (Normal response)) w) = trace w ∧
  isRefreshing (exec (settle (Normal response)) w) = isRefreshing w.
Proof.
  intros [-> | [-> | ->]]; store; repeat split; by simplify_map_eq.
Qed.


(** X11: [logout] undoes a sign-in.  Logging out after a successful
    [login], [register] or [verifyPhone] leaves localStorage exactly as
    logging out before it would have, and the store reset. *)
Theorem logout_undoes_sign_in
    (settle : completion AuthResponse → M User unit) response w :
  settle = loginSettled ∨ settle = registerSettled ∨
  settle = verifyPhoneSettled →
  localStorage (exec (logout persistJSON) (exec (settle (Normal response)) w))
    = localStorage (exec (logout persistJSON) w) ∧
  authStore (exec (logout persistJSON) (exec (settle (Normal response)) w))
    = mkAuthState None None false false.
Proof.
  intros Hsettle.
  assert (settle (Normal response) = loginSettled (Normal response)) as ->.
  { by destruct Hsettle as [-> | [-> | ->]]. }
  store. split; [|reflexivity].
  apply map_eq. intros k.
  destruct (decide (k = "auth-storage")) as [Ha|Ha];
    destruct (decide (k = "refresh_token")) as [Hb|Hb];
    destruct (decide (k = "access_token")) as [Hc|Hc];
    by simplify_map_eq.
Qed.

Lemma enter_authStore w1 w' id config :
  Enter id config w1 w' →
  authStore w' = authStore w1 ∧
  ∀ k, k ≠ "access_token" → localStorage w' !! k = localStorage w1 !! k.
Proof. by intros []. Qed.

(** What an event of the pipeline does to the store and to the keys of
    localStorage other than the access token: nothing, or [logout]. *)
Lemma turn_authStore w e w' :
  Turn persistJSON w e w' →
  (authStore w' = authStore w ∧
   ∀ k, k ≠ "access_token" → localStorage w' !! k = localStorage w !! k) ∨
  (authStore w' = mkAuthState None None false (isLoading (authStore w)) ∧
   localStorage w' !! "auth-storage" = Some (persistJSON None false)).
Proof.
  intros Hturn.
  destruct Hturn as
    [ id config now w' Ht Henter
    | id config a Ht | id config Ht
    | id config status a Ht | id config status Ht
    | id config token now Ht Hne
    | id config newToken now Ht Hf
    | id config status token now w' Ht Hne Henter
    | id config status newToken now Ht Hf
    | id config status Ht
    | id config status Ht Hguard
    | id config status refresh Ht H401 Hr Hl
    | id config status Ht H401 Hr Hl ];
    try (destruct (enter_authStore _ _ _ _ Henter) as [Hstore Hkeys];
         left; split; [exact Hstore | exact Hkeys]);
    try (left; expose; split; [reflexivity|];
         intros k Hk; by rewrite ?lookup_insert_ne);
    right; expose; split; by simplify_map_eq.
Qed.

Lemma act_coherent (a : @Action User AuthResponse) w :
  coherent (authStore w) → coherent (authStore (exec (acted a) w)).
Proof.
  intros [Huser Htokens].
  destruct a as [ | [r|] | | [r|] | | [r|] | | u | [u|] ]; store;
    split; cbn; try done; auto.
Qed.

(** X12: the auth store stays coherent.  Whatever stretches of store
    actions and events of the request pipeline follow one another, the
    store says [isAuthenticated] only while it holds a user, and holds
    [tokens] only while it says [isAuthenticated]. *)
Theorem store_stays_coherent w0 (ms : list (@Move User AuthResponse)) w :
  coherent (authStore w0) →
  sessionOf w0 ms = Some w →
  coherent (authStore w).
Proof.
  revert w0. induction ms as [|m ms IH]; intros w0 Hinv Hrun.
  - cbn in Hrun. by simplify_eq.
  - cbn [session] in Hrun.
    destruct m as [e | a]; cbn [move] in Hrun.
    + destruct (step jwtDecode persistJSON w0 e) as [w1|] eqn:Hstep;
        [|discriminate].
      apply (IH w1); [|done].
      destruct (turn_authStore w0 e w1 (step_turn jwtDecode _ _ _ _ Hstep))
        as [[-> _] | [-> _]]; [done|].
      split; cbn; [discriminate | by intros [? [=]]].
    + apply (IH (exec (acted a) w0)); [|done]. by apply act_coherent.
Qed.

Lemma act_persisted (a : @Action User AuthResponse) w :
  persisted persistJSON w → persisted persistJSON (exec (acted a) w).
Proof.
  unfold persisted. intros Hinv.
  destruct a as [ | [r|] | | [r|] | | [r|] | | u | [u|] ]; store;
    by simplify_map_eq.
Qed.

(** X13: the persisted copy follows the store.  If the value under
    ['auth-storage'] is the partialised store [{ user, isAuthenticated }]
    to begin with, it is so after any stretches of store actions and events
    of the request pipeline. *)
Theorem persisted_copy_follows_store w0 (ms : list (@Move User AuthResponse)) w :
  persisted persistJSON w0 →
  sessionOf w0 ms = Some w →
  persisted persistJSON w.
Proof.
  revert w0. induction ms as [|m ms IH]; intros w0 Hinv Hrun.
  - cbn in Hrun. by simplify_eq.
  - cbn [session] in Hrun.
    destruct m as [e | a]; cbn [move] in Hrun.
    + destruct (step jwtDecode persistJSON w0 e) as [w1|] eqn:Hstep;
        [|discriminate].
      apply (IH w1); [|done]. unfold persisted in *.
      destruct (turn_authStore w0 e w1 (step_turn jwtDecode _ _ _ _ Hstep))
        as [[-> Hkeys] | [-> Hcopy]].
      * by rewrite Hkeys.
      * exact Hcopy.
    + apply (IH (exec (acted a) w0)); [|done]. by apply act_persisted.
Qed.

(** X14: the request pipeline never writes the auth store except to log
    out.  After any events of the pipeline the store is the one the page
    started with, or the logged-out one; a renewed access token never
    reaches the store's [tokens]. *)
Theorem pipeline_leaves_store w0 (es : list Event) w :
  run jwtDecode persistJSON w0 es = Some w →
  authStore w = authStore w0 ∨
  authStore w = mkAuthState None None false (isLoading (authStore w0)).
Proof.
  revert w0. induction es as [|e es IH]; intros w0 Hrun.
  - cbn in Hrun. simplify_eq. by left.
  - cbn [run] in Hrun.
    destruct (step jwtDecode persistJSON w0 e) as [w1|] eqn:Hstep;
      [|discriminate].
    destruct (turn_authStore w0 e w1 (step_turn jwtDecode _ _ _ _ Hstep))
      as [[H1 _] | [H1 _]];
      destruct (IH w1 Hrun) as [H2 | H2]; rewrite H2, H1; auto.
Qed.

End Store.

(** * The further theorems at work on the page *)

Lemma one_renewal_in_flight_witness :
  ∃ id, renewing (tasks (Demo.after (Demo.page "old") Demo.bothExpired) !! id).
Proof.
  apply (one_renewal_in_flight Demo.jwtDecode Demo.persistJSON
           (Demo.page "old") Demo.bothExpired
           (Demo.after (Demo.page "old") Demo.bothExpired));
    [reflexivity | reflexivity | vm_compute; reflexivity |].
  vm_compute. reflexivity.
Defined.

Lemma refresh_token_never_replaced_witness :
  (localStorage (Demo.after (Demo.page "new") Demo.bothRejectedThenFail)
     !! "refresh_token" = Some "r1" ∨
   localStorage (Demo.after (Demo.page "new") Demo.bothRejectedThenFail)
     !! "refresh_token" = None) ∧
  ∀ r, r ∈ refreshPosts
             (trace (Demo.after (Demo.page "new") Demo.bothRejectedThenFail)) →
       Some "r1" = Some r.
Proof.
  apply (refresh_token_never_replaced Demo.jwtDecode Demo.persistJSON
           (Demo.page "new") Demo.bothRejectedThenFail
           (Demo.after (Demo.page "new") Demo.bothRejectedThenFail));
    [reflexivity | vm_compute; reflexivity].
Defined.

Lemma request_reaches_wire_unchanged_witness :
  sameRequest Demo.getMatches (set_Authorization "new" Demo.getMatches).
Proof.
  refine (request_reaches_wire_unchanged Demo.jwtDecode Demo.persistJSON
           (λ id, if decide (id = 1) then Demo.getCourts else Demo.getMatches)
           (Demo.page "old")
           (Demo.bothExpired ++ [PostReply 1 (Normal "new"); Resume 1 200050])
           (Demo.after (Demo.page "old")
              (Demo.bothExpired
               ++ [PostReply 1 (Normal "new"); Resume 1 200050]))
           eq_refl eq_refl eq_refl _ _ 2
           (set_Authorization "new" Demo.getMatches) _).
  - vm_compute. reflexivity.
  - intros id c now Hin. cbn in Hin.
    repeat (apply elem_of_cons in Hin as [Heq | Hin];
            [try discriminate Heq; injection Heq as -> -> ->;
             by repeat split |]).
    by apply elem_of_nil in Hin.
  - assert (trace (Demo.after (Demo.page "old")
                     (Demo.bothExpired
                      ++ [PostReply 1 (Normal "new"); Resume 1 200050]))
            = [RefreshPost "r1"; Invoke 2 "new";
               Transmit 2 (set_Authorization "new" Demo.getMatches);
               Transmit 1 (set_Authorization "new" Demo.getCourts)]) as ->
      by (vm_compute; reflexivity).
    rewrite !elem_of_cons. right. right. left. reflexivity.
Defined.

Lemma sent_at_most_twice_witness :
  sent 1 (trace (Demo.after (Demo.page "new")
                   (Demo.rejectedThenReplayed
                    ++ [Response 1 (Failure (Some 401))]))) ≤ 2.
Proof.
  apply (sent_at_most_twice Demo.jwtDecode Demo.persistJSON
           (Demo.page "new")
           (Demo.rejectedThenReplayed ++ [Response 1 (Failure (Some 401))]));
    [reflexivity | reflexivity | reflexivity | vm_compute; reflexivity].
Defined.

Lemma one_callback_per_waiting_request_witness :
  (∀ cb, cb ∈ refreshSubscribers
                (Demo.after (Demo.page "old") Demo.bothExpired) →
         tasks (Demo.after (Demo.page "old") Demo.bothExpired) !! cb_id cb
         = Some Subscribed) ∧
  NoDup (map cb_id (refreshSubscribers
                      (Demo.after (Demo.page "old") Demo.bothExpired))).
Proof.
  apply (one_callback_per_waiting_request Demo.jwtDecode Demo.persistJSON
           (Demo.page "old") Demo.bothExpired);
    [reflexivity | reflexivity | reflexivity | vm_compute; reflexivity].
Defined.

Lemma rejected_without_refresh_token_witness :
  ∃ w1 w2,
    Demo.step (Demo.after Demo.anonymous [Issue 1 Demo.getCourts 200000])
      (Response 1 (Failure (Some 401))) = Some w1 ∧
    Demo.step w1 (Resume 1 200050) = Some w2 ∧
    refreshPosts (trace w2) = [] ∧
    location_href w2 = "/login".
Proof.
  destruct (rejected_without_refresh_token Demo.jwtDecode Demo.persistJSON
              (Demo.after Demo.anonymous [Issue 1 Demo.getCourts 200000])
              1 Demo.getCourts 200050)
    as (w1 & w2 & Hstep1 & _ & Hstep2 & Htrace & _ & _ & _ & Hhref);
    [vm_compute; reflexivity | reflexivity | reflexivity |].
  exists w1, w2. split; [exact Hstep1|]. split; [exact Hstep2|].
  split; [rewrite Htrace; vm_compute; reflexivity | exact Hhref].
Defined.


Lemma expired_requests_share_one_renewal_witness :
  ∃ w', Demo.run (Demo.page "old")
          (Demo.bothExpired ++ [PostReply 1 (Normal "new"); Resume 1 200050])
        = Some w' ∧
    refreshPosts (trace w') = ["r1"] ∧
    transmitted 2 (trace w') = [set_Authorization "new" Demo.getMatches].
Proof.
  destruct (expired_requests_share_one_renewal Demo.jwtDecode
              Demo.persistJSON (Demo.page "old")
              (1, Demo.getCourts, 200000%Z) [(2, Demo.getMatches, 200000%Z)]
              "old" (100 # 1)%Q "r1" "new" 200050)
    as (w' & Hrun & Hposts & Hsent);
    [reflexivity | reflexivity | reflexivity | discriminate | reflexivity
    | repeat constructor | reflexivity | discriminate | discriminate
    | | repeat constructor |].
  { cbn. repeat constructor; rewrite ?elem_of_cons, ?elem_of_nil;
      intuition discriminate. }
  exists w'. split; [exact Hrun|]. split; [exact Hposts|].
  apply (Hsent (2, Demo.getMatches, 200000%Z)). right. left.
Defined.

Lemma sign_in_stores_session_witness :
  localStorage (exec (Account.login_settle (Normal Account.granted))
                  Demo.anonymous) !! "access_token" = Some "new" ∧
  isAuthenticated (authStore (exec (Account.login_settle
                                      (Normal Account.granted))
                                Demo.anonymous)) = true.
Proof.
  destruct (sign_in_stores_session Demo.persistJSON Account.resp_access
              Account.resp_refresh Account.resp_name
              Account.login_settle Account.granted Demo.anonymous)
    as (_ & Haccess & _ & Hstore & _); [left; reflexivity|].
  split; [exact Haccess|]. rewrite Hstore. reflexivity.
Defined.


Lemma logout_undoes_sign_in_witness :
  localStorage (exec (logout Demo.persistJSON)
                  (exec (Account.login_settle (Normal Account.granted))
                     Demo.anonymous))
  = localStorage (exec (logout Demo.persistJSON) Demo.anonymous).
Proof.
  apply (logout_undoes_sign_in Demo.persistJSON Account.resp_access
           Account.resp_refresh Account.resp_name
           Account.login_settle Account.granted Demo.anonymous).
  left. reflexivity.
Defined.

Lemma store_stays_coherent_witness :
  coherent (authStore (Account.after Demo.anonymous Account.evening)).
Proof.
  apply (store_stays_coherent Demo.jwtDecode Demo.persistJSON
           Account.resp_access Account.resp_refresh Account.resp_name
           Demo.anonymous Account.evening).
  - split; [discriminate | by intros [? [=]]].
  - vm_compute. reflexivity.
Defined.

Lemma persisted_copy_follows_store_witness :
  persisted Demo.persistJSON (Account.after Account.loggedOut Account.evening).
Proof.
  apply (persisted_copy_follows_store Demo.jwtDecode Demo.persistJSON
           Account.resp_access Account.resp_refresh Account.resp_name
           Account.loggedOut Account.evening).
  - vm_compute. reflexivity.
  - vm_compute. reflexivity.
Defined.

Lemma pipeline_leaves_store_witness :
  authStore (Demo.after (Demo.page "old")
               (Demo.bothExpired
                ++ [PostReply 1 (Normal "new"); Resume 1 200050]))
  = Demo.signedIn ∨
  authStore (Demo.after (Demo.page "old")
               (Demo.bothExpired
                ++ [PostReply 1 (Normal "new"); Resume 1 200050]))
  = mkAuthState None None false false.
Proof.
  apply (pipeline_leaves_store Demo.jwtDecode Demo.persistJSON
           (Demo.page "old")
           (Demo.bothExpired ++ [PostReply 1 (Normal "new"); Resume 1 200050])).
  vm_compute. reflexivity.
Defined.

(** * No token is invented *)

Section Genuine.

Context {User : Type}.
Variable jwtDecode : string → completion Claims.
Variable persistJSON : option User → bool → string.
Variable known : string → Prop.
Variable origin : nat → Config.

Implicit Types (w : @World User) (config : Config) (token : string).

(** Splits the membership of an effect in a list that is written out. *)
Ltac members :=
  repeat match goal with
         | H : _ ∈ [] |- _ => by apply elem_of_nil in H
         | H : _ ∈ _ :: _ |- _ => apply elem_of_cons in H as [H | H]
         | H : _ ∈ _ ++ _ |- _ => apply elem_of_app in H as [H | H]
         | H : Transmit _ _ = Transmit _ _ |- _ => injection H as -> ->
         | H : Invoke _ _ = Invoke _ _ |- _ => injection H as -> ->
         | H : @eq Effect _ _ |- _ => discriminate H
         end.

Lemma genuine_Authorization o c token :
  known token → genuineHeader known o (set_Authorization token c).
Proof.
  intros Hs. right. exists token. split; [done|]. cbn.
  by rewrite lookup_insert_eq.
Qed.

Lemma genuine_retry o c :
  genuineHeader known o c → genuineHeader known o (set_retry c).
Proof. done. Qed.

Lemma Invoke_drained i a token (l : list Callback) :
  Invoke i a ∈ drained token l → a = token.
Proof.
  induction l as [|cb l IH]; [by intros ?%elem_of_nil|].
  change (drained token (cb :: l))
    with ([Invoke (cb_id cb) token;
           Transmit (cb_id cb) (set_Authorization token (cb_config cb))]
          ++ drained token l).
  intros Hin. members; auto.
Qed.

Lemma genuine_frame w w' id t (extra : list Effect) :
  tokensGenuine known origin w →
  (∀ a, localStorage w' !! "access_token" = Some a → known a) →
  tasks w' = <[id := t]> (tasks w) →
  (∀ a, tokenOf (Some t) = Some a → known a) →
  (∀ c, configOf (Some t) = Some c → genuineHeader known (origin id) c) →
  trace w' = trace w ++ extra →
  (∀ i c, Transmit i c ∈ extra → genuineHeader known (origin i) c) →
  (∀ i a, Invoke i a ∈ extra → known a) →
  (∀ cb, cb ∈ refreshSubscribers w' →
         cb ∈ refreshSubscribers w ∨
         genuineHeader known (origin (cb_id cb)) (cb_config cb)) →
  tokensGenuine known origin w'.
Proof.
  intros (Hstore & Htokens & Hconfigs & Hsubs & Hwire & Hcalls)
    Hstore' Ht Htoken Hconfig Htrace Hextra Hinvoke Hsubs'.
  repeat split.
  - exact Hstore'.
  - intros i a. rewrite Ht. destruct (decide (i = id)) as [->|Hne].
    + rewrite lookup_insert_eq. apply Htoken.
    + rewrite lookup_insert_ne by congruence. apply Htokens.
  - intros i c. rewrite Ht. destruct (decide (i = id)) as [->|Hne].
    + rewrite lookup_insert_eq. apply Hconfig.
    + rewrite lookup_insert_ne by congruence. apply Hconfigs.
  - intros cb Hin. destruct (Hsubs' cb Hin); auto.
  - intros i c. rewrite Htrace, elem_of_app. intros [Hold | Hnew]; auto.
  - intros i a. rewrite Htrace, elem_of_app. intros [Hold | Hnew]; eauto.
Qed.

(** Closes the side conditions of [genuine_frame] that hold by reading
    the effects and the task off. *)
Ltac read_off :=
  auto;
  try (by intros ? [=]);
  try (by intros ? [= <-]);
  try (by intros ? ? ?%elem_of_nil);
  try (intros ? ? Hin; members;
       solve [ done
             | by apply genuine_Authorization
             | match goal with
               | Hp : ∀ i c, Transmit i c ∉ _, H : Transmit _ _ ∈ _ |- _ =>
                   by destruct (Hp _ _ H)
               | Hp : ∀ i a, Invoke i a ∉ _, H : Invoke _ _ ∈ _ |- _ =>
                   by destruct (Hp _ _ H)
               end ]).

Lemma genuine_enter w w1 w' id config (pre : list Effect) :
  tokensGenuine known origin w →
  localStorage w1 = localStorage w →
  tasks w1 = tasks w →
  refreshSubscribers w1 = refreshSubscribers w →
  trace w1 = trace w ++ pre →
  (∀ i c, Transmit i c ∉ pre) →
  (∀ i a, Invoke i a ∉ pre) →
  genuineHeader known (origin id) config →
  Enter id config w1 w' →
  tokensGenuine known origin w'.
Proof.
  intros Hinv Hls Hta Hsu Htr Hpre Hpre' Hgen Henter.
  pose proof Hinv as (Hstore & _).
  destruct Henter as [Ht | | token Hl | Hr | refresh Hr Hl | Hr Ht].
  - apply (genuine_frame w _ id (InFlight config)
             (pre ++ [Transmit id config]) Hinv); expose;
      rewrite ?Hls, ?Hta, ?Hsu, ?Htr, <- ?app_assoc; read_off.
  - apply (genuine_frame w _ id (InFlight config)
             (pre ++ [ConsoleError; Transmit id config]) Hinv); expose;
      rewrite ?Hls, ?Hta, ?Hsu, ?Htr, <- ?app_assoc; read_off.
  - assert (known token) as Hs by (apply Hstore; by rewrite <- Hls).
    apply (genuine_frame w _ id (InFlight (set_Authorization token config))
             (pre ++ [Transmit id (set_Authorization token config)]) Hinv);
      expose; rewrite ?Hls, ?Hta, ?Hsu, ?Htr, <- ?app_assoc; read_off.
    intros c [= <-]. by apply genuine_Authorization.
  - apply (genuine_frame w _ id Subscribed pre Hinv); expose;
      rewrite ?Hls, ?Hta, ?Hsu, ?Htr, <- ?app_assoc; read_off.
    intros cb Hin. members; [by left | right]. subst cb. exact Hgen.
  - apply (genuine_frame w _ id (OutAwaitPost config)
             (pre ++ [RefreshPost refresh]) Hinv); expose;
      rewrite ?Hls, ?Hta, ?Hsu, ?Htr, <- ?app_assoc; read_off.
  - apply (genuine_frame w _ id (OutAwaitRefresh config None) pre Hinv);
      expose; rewrite ?Hls, ?Hta, ?Hsu, ?Htr, <- ?app_assoc; read_off.
Qed.

Lemma genuine_turn w e w' :
  tokensGenuine known origin w →
  (∀ id c now, e = Issue id c now →
               headers c !! "Authorization"
               = headers (origin id) !! "Authorization") →
  (∀ id a, e = PostReply id (Normal a) → known a) →
  Turn persistJSON w e w' →
  tokensGenuine known origin w'.
Proof.
  intros Hinv Hissue Hreply Hturn.
  pose proof Hinv as (Hstore & Htokens & Hconfigs & Hsubs & Hwire & Hcalls).
  destruct Hturn as
    [ id config now w' Ht Henter
    | id config a Ht | id config Ht
    | id config status a Ht | id config status Ht
    | id config token now Ht Hne
    | id config newToken now Ht Hf
    | id config status token now w' Ht Hne Henter
    | id config status newToken now Ht Hf
    | id config status Ht
    | id config status Ht Hguard
    | id config status refresh Ht H401 Hr Hl
    | id config status Ht H401 Hr Hl ];
    try (assert (genuineHeader known (origin id) config) as Hgen
           by (apply Hconfigs; rewrite Ht; reflexivity)).
  - apply (genuine_enter w w w' id config [] Hinv); read_off.
    + by rewrite app_nil_r.
    + left. by apply (Hissue id config now).
  - assert (known a) as Hs by (by apply (Hreply id)).
    apply (genuine_frame w _ id (OutAwaitRefresh config (Some a)) [] Hinv);
      expose; rewrite ?app_nil_r; read_off.
    intros a'. rewrite lookup_insert_eq. by intros [= <-].
  - apply (genuine_frame w _ id (OutAwaitRefresh config None) [] Hinv);
      expose; rewrite ?app_nil_r; read_off.
  - assert (known a) as Hs by (by apply (Hreply id)).
    apply (genuine_frame w _ id (InAwaitRefresh config status (Some a)) []
             Hinv); expose; rewrite ?app_nil_r; read_off.
    intros a'. rewrite lookup_insert_eq. by intros [= <-].
  - apply (genuine_frame w _ id (InAwaitRefresh config status None) []
             Hinv); expose; rewrite ?app_nil_r; read_off.
  - (* the drain *)
    assert (known token) as Hs by (apply (Htokens id); by rewrite Ht).
    repeat split; expose.
    + exact Hstore.
    + intros i a. destruct (decide (i = id)) as [->|Hne'].
      * by rewrite lookup_insert_eq.
      * rewrite lookup_insert_ne by congruence.
        destruct (drainTasks_lookup token (refreshSubscribers w) (tasks w) i)
          as [Heq | (cb & Hin & Hid & Heq)]; rewrite Heq; [apply Htokens|].
        by intros [=].
    + intros i c. destruct (decide (i = id)) as [->|Hne'].
      * rewrite lookup_insert_eq. intros [= <-].
        by apply genuine_Authorization.
      * rewrite lookup_insert_ne by congruence.
        destruct (drainTasks_lookup token (refreshSubscribers w) (tasks w) i)
          as [Heq | (cb & Hin & Hid & Heq)]; rewrite Heq; [apply Hconfigs|].
        intros [= <-]. by apply genuine_Authorization.
    + by intros cb ?%elem_of_nil.
    + intros i c Hin. members; auto.
      * apply Transmit_drained in Hin as (cb & Hin & -> & ->).
        by apply genuine_Authorization.
      * by apply genuine_Authorization.
    + intros i a Hin. members; eauto.
      by apply Invoke_drained in Hin as ->.
  - apply (genuine_frame w _ id (InFlight config)
             [Navigate "/login"; Transmit id config] Hinv); expose;
      rewrite <- ?app_assoc; read_off.
    intros a. by simplify_map_eq.
  - assert (known token) as Hs by (apply (Htokens id); by rewrite Ht).
    apply (genuine_enter w (with_trace (λ t, t ++ [Replay id]) w) w' id
             (set_Authorization token config) [Replay id] Hinv); read_off.
    by apply genuine_Authorization.
  - apply (genuine_frame w _ id (Settled (Rejected status))
             [Navigate "/login"; Settle id (Rejected status)] Hinv); expose;
      rewrite <- ?app_assoc; read_off.
    intros a. by simplify_map_eq.
  - apply (genuine_frame w _ id (Settled (Fulfilled status))
             [Settle id (Fulfilled status)] Hinv); expose; read_off.
  - apply (genuine_frame w _ id (Settled (Rejected status))
             [Settle id (Rejected status)] Hinv); expose; read_off.
  - apply (genuine_frame w _ id (InAwaitPost (set_retry config) status)
             [RefreshPost refresh] Hinv); expose; read_off.
  - apply (genuine_frame w _ id
             (InAwaitRefresh (set_retry config) status None) [] Hinv);
      expose; rewrite ?app_nil_r; read_off.
Qed.

(** X15: the interceptors invent no token.  Let [known] hold of the access
    token the page starts with and of every token the refresh endpoint
    answers with.  Then, whatever the order of events, every config on the
    wire carries the [Authorization] header its request was issued with or
    [Bearer t] for a token [t] in [known], and every subscriber was called with
    a token in [known]. *)
Theorem no_token_invented w0 es w :
  tasks w0 = ∅ → refreshSubscribers w0 = [] → trace w0 = [] →
  run jwtDecode persistJSON w0 es = Some w →
  (∀ a, localStorage w0 !! "access_token" = Some a → known a) →
  (∀ id a, PostReply id (Normal a) ∈ es → known a) →
  (∀ id c now, Issue id c now ∈ es →
               headers c !! "Authorization"
               = headers (origin id) !! "Authorization") →
  (∀ id c, Transmit id c ∈ trace w → genuineHeader known (origin id) c) ∧
  (∀ id a, Invoke id a ∈ trace w → known a).
Proof.
  intros Ht Hs Htr Hrun Hstored Hreplies Hissued.
  assert (tokensGenuine known origin w0) as Hinit.
  { repeat split.
    - exact Hstored.
    - intros i a. by rewrite Ht, lookup_empty.
    - intros i c. by rewrite Ht, lookup_empty.
    - rewrite Hs. by intros cb ?%elem_of_nil.
    - rewrite Htr. by intros i c ?%elem_of_nil.
    - rewrite Htr. by intros i a ?%elem_of_nil. }
  clear Ht Hs Htr Hstored.
  assert (tokensGenuine known origin w) as (_ & _ & _ & _ & Hwire & Hcalls);
    [|by split].
  revert w0 Hinit Hrun Hreplies Hissued.
  induction es as [|e es IH]; intros w0 Hinit Hrun Hreplies Hissued.
  - cbn in Hrun. by simplify_eq.
  - cbn [run] in Hrun.
    destruct (step jwtDecode persistJSON w0 e) as [w1|] eqn:Hstep;
      [|discriminate].
    apply (IH w1); [|done| |].
    + apply (genuine_turn w0 e w1 Hinit);
        [| |by apply (step_turn jwtDecode)].
      * intros id c now ->. apply (Hissued id c now). left.
      * intros id a ->. apply (Hreplies id a). left.
    + intros id a Hin. apply (Hreplies id a). by right.
    + intros id c now Hin. apply (Hissued id c now). by right.
Qed.

End Genuine.

Lemma no_token_invented_witness :
  genuineHeader (λ t, t = "old" ∨ t = "new") Demo.getMatches
    (set_Authorization "new" Demo.getMatches).
Proof.
  refine (proj1 (no_token_invented Demo.jwtDecode Demo.persistJSON
           (λ t, t = "old" ∨ t = "new")
           (λ id, if decide (id = 1) then Demo.getCourts else Demo.getMatches)
           (Demo.page "old")
           (Demo.bothExpired ++ [PostReply 1 (Normal "new"); Resume 1 200050])
           (Demo.after (Demo.page "old")
              (Demo.bothExpired
               ++ [PostReply 1 (Normal "new"); Resume 1 200050]))
           eq_refl eq_refl eq_refl _ _ _ _) 2
           (set_Authorization "new" Demo.getMatches) _).
  - vm_compute. reflexivity.
  - intros a Ha. vm_compute in Ha. injection Ha as <-. by left.
  - intros id a Hin. cbn in Hin.
    repeat (apply elem_of_cons in Hin as [Heq | Hin];
            [try discriminate Heq; injection Heq as -> ->; by right |]).
    by apply elem_of_nil in Hin.
  - intros id c now Hin. cbn in Hin.
    repeat (apply elem_of_cons in Hin as [Heq | Hin];
            [try discriminate Heq; injection Heq as -> -> ->; reflexivity |]).
    by apply elem_of_nil in Hin.
  - assert (trace (Demo.after (Demo.page "old")
                     (Demo.bothExpired
                      ++ [PostReply 1 (Normal "new"); Resume 1 200050]))
            = [RefreshPost "r1"; Invoke 2 "new";
               Transmit 2 (set_Authorization "new" Demo.getMatches);
               Transmit 1 (set_Authorization "new" Demo.getCourts)]) as ->
      by (vm_compute; reflexivity).
    rewrite !elem_of_cons. right. right. left. reflexivity.
Defined.

(** * A promise settles once *)

Section SettleOnce.

Context {User : Type}.
Variable jwtDecode : string → completion Claims.
Variable persistJSON : option User → bool → string.

Implicit Types (w : @World User) (config : Config) (token : string).

Lemma outcomes_app id (t l : list Effect) :
  outcomes id (t ++ l) = outcomes id t ++ outcomes id l.
Proof. apply omap_app. Qed.

Lemma outcomes_self id o : outcomes id [Settle id o] = [o].
Proof. cbv [outcomes omap list_omap]. by case_decide. Qed.

Lemma outcomes_other i id o : i ≠ id → outcomes i [Settle id o] = [].
Proof. intros Hne. cbv [outcomes omap list_omap]. by case_decide. Qed.

Lemma outcomes_drained id token (l : list Callback) :
  outcomes id (drained token l) = [].
Proof. induction l as [|cb l IH]; [reflexivity | exact IH]. Qed.

(** A turn that moves one request that had not settled. *)
Lemma settle_frame w w' id t (extra : list Effect) :
  (∀ i, outcomes i (trace w) = outcomeOf (tasks w !! i)) →
  tasks w' = <[id := t]> (tasks w) →
  outcomeOf (tasks w !! id) = [] →
  trace w' = trace w ++ extra →
  (∀ i, i ≠ id → outcomes i extra = []) →
  outcomes id extra = outcomeOf (Some t) →
  ∀ i, outcomes i (trace w') = outcomeOf (tasks w' !! i).
Proof.
  intros Hinv Htasks Hold Htrace Hothers Hid i.
  rewrite Htrace, outcomes_app, Htasks, Hinv.
  destruct (decide (i = id)) as [->|Hne].
  - by rewrite lookup_insert_eq, Hold, Hid.
  - by rewrite lookup_insert_ne, Hothers, app_nil_r by congruence.
Qed.

Lemma settle_enter w w1 w' id config (pre : list Effect) :
  (∀ i, outcomes i (trace w) = outcomeOf (tasks w !! i)) →
  tasks w1 = tasks w →
  trace w1 = trace w ++ pre →
  (∀ i, outcomes i pre = []) →
  outcomeOf (tasks w !! id) = [] →
  Enter id config w1 w' →
  ∀ i, outcomes i (trace w') = outcomeOf (tasks w' !! i).
Proof.
  intros Hinv Hta Htr Hpre Hold Henter.
  destruct Henter as [Ht | | token Hl | Hr | refresh Hr Hl | Hr Ht].
  - apply (settle_frame w _ id (InFlight config)
             (pre ++ [Transmit id config]) Hinv); expose;
      rewrite ?Hta, ?Htr, <- ?app_assoc; auto;
      intros; by rewrite outcomes_app, Hpre.
  - apply (settle_frame w _ id (InFlight config)
             (pre ++ [ConsoleError; Transmit id config]) Hinv); expose;
      rewrite ?Hta, ?Htr, <- ?app_assoc; auto;
      intros; by rewrite outcomes_app, Hpre.
  - apply (settle_frame w _ id (InFlight (set_Authorization token config))
             (pre ++ [Transmit id (set_Authorization token config)]) Hinv);
      expose; rewrite ?Hta, ?Htr, <- ?app_assoc; auto;
      intros; by rewrite outcomes_app, Hpre.
  - apply (settle_frame w _ id Subscribed pre Hinv); expose;
      rewrite ?Hta, ?Htr; auto.
  - apply (settle_frame w _ id (OutAwaitPost config)
             (pre ++ [RefreshPost refresh]) Hinv); expose;
      rewrite ?Hta, ?Htr, <- ?app_assoc; auto;
      intros; by rewrite outcomes_app, Hpre.
  - apply (settle_frame w _ id (OutAwaitRefresh config None) pre Hinv);
      expose; rewrite ?Hta, ?Htr; auto.
Qed.

Lemma settle_turn w e w' :
  settleInvariant w → Turn persistJSON w e w' → settleInvariant w'.
Proof.
  intros [Hwire Hinv] Hturn. split; [by apply (wire_turn persistJSON w e)|].
  pose proof Hwire as (_ & Hlink & _).
  destruct Hturn as
    [ id config now w' Ht Henter
    | id config a Ht | id config Ht
    | id config status a Ht | id config status Ht
    | id config token now Ht Hne
    | id config newToken now Ht Hf
    | id config status token now w' Ht Hne Henter
    | id config status newToken now Ht Hf
    | id config status Ht
    | id config status Ht Hguard
    | id config status refresh Ht H401 Hr Hl
    | id config status Ht H401 Hr Hl ];
    assert (outcomeOf (tasks w !! id) = []) as Hold by (by rewrite Ht).
  - apply (settle_enter w w w' id config [] Hinv); auto.
    by rewrite app_nil_r.
  - apply (settle_frame w _ id (OutAwaitRefresh config (Some a)) [] Hinv);
      expose; rewrite ?app_nil_r; auto.
  - apply (settle_frame w _ id (OutAwaitRefresh config None) [] Hinv);
      expose; rewrite ?app_nil_r; auto.
  - apply (settle_frame w _ id (InAwaitRefresh config status (Some a)) []
             Hinv); expose; rewrite ?app_nil_r; auto.
  - apply (settle_frame w _ id (InAwaitRefresh config status None) [] Hinv);
      expose; rewrite ?app_nil_r; auto.
  - (* the drain *)
    expose. intros i.
    rewrite !outcomes_app, outcomes_drained, Hinv.
    change (outcomes i [Transmit id (set_Authorization token config)])
      with (@nil Outcome).
    rewrite !app_nil_r.
    destruct (decide (i = id)) as [->|Hne'].
    + by rewrite lookup_insert_eq, Hold.
    + rewrite lookup_insert_ne by congruence.
      destruct (decide (i ∈ map cb_id (refreshSubscribers w))) as [Hin | Hout].
      * destruct (drainTasks_in token _ (tasks w) i Hin) as [c ->].
        apply list_elem_of_fmap in Hin as (cb & -> & Hin).
        by rewrite (Hlink cb Hin).
      * by rewrite drainTasks_notin.
  - apply (settle_frame w _ id (InFlight config)
             [Navigate "/login"; Transmit id config] Hinv); expose;
      rewrite <- ?app_assoc; auto.
  - apply (settle_enter w (with_trace (λ t, t ++ [Replay id]) w) w' id
             (set_Authorization token config) [Replay id] Hinv); auto.
  - apply (settle_frame w _ id (Settled (Rejected status))
             [Navigate "/login"; Settle id (Rejected status)] Hinv); expose;
      rewrite <- ?app_assoc; auto.
    + intros i Hne'.
      change [Navigate "/login"; Settle id (Rejected status)]
        with ([Navigate "/login"] ++ [Settle id (Rejected status)]).
      by rewrite outcomes_app, outcomes_other.
    + change [Navigate "/login"; Settle id (Rejected status)]
        with ([Navigate "/login"] ++ [Settle id (Rejected status)]).
      by rewrite outcomes_app, outcomes_self.
  - apply (settle_frame w _ id (Settled (Fulfilled status))
             [Settle id (Fulfilled status)] Hinv); expose; auto.
    + intros i Hne'. by rewrite outcomes_other.
    + by rewrite outcomes_self.
  - apply (settle_frame w _ id (Settled (Rejected status))
             [Settle id (Rejected status)] Hinv); expose; auto.
    + intros i Hne'. by rewrite outcomes_other.
    + by rewrite outcomes_self.
  - apply (settle_frame w _ id (InAwaitPost (set_retry config) status)
             [RefreshPost refresh] Hinv); expose; auto.
  - apply (settle_frame w _ id (InAwaitRefresh (set_retry config) status None)
             [] Hinv); expose; rewrite ?app_nil_r; auto.
Qed.

(** X16: the promise of a request settles at most once.  On a page that
    starts with no request under way, whatever the order of events, the
    trace holds no [Settle] for a request that is still in the pipeline and
    exactly one, with the recorded outcome, for a request that has
    settled. *)
Theorem promise_settles_once w0 es w id :
  tasks w0 = ∅ → refreshSubscribers w0 = [] → trace w0 = [] →
  run jwtDecode persistJSON w0 es = Some w →
  outcomes id (trace w) = outcomeOf (tasks w !! id) ∧
  length (outcomes id (trace w)) ≤ 1.
Proof.
  intros Ht Hs Htr Hrun.
  assert (settleInvariant w0) as Hinit.
  { split; [by apply wireInvariant_init|].
    intros i. by rewrite Ht, Htr, lookup_empty. }
  assert (settleInvariant w) as [_ Hinv].
  { clear Ht Hs Htr. revert w0 Hinit Hrun.
    induction es as [|e es IH]; intros w0 Hinit Hrun.
    - cbn in Hrun. by simplify_eq.
    - cbn [run] in Hrun.
      destruct (step jwtDecode persistJSON w0 e) as [w1|] eqn:Hstep;
        [|discriminate].
      apply (IH w1); [|done].
      apply (settle_turn w0 e w1 Hinit). by apply (step_turn jwtDecode). }
  split; [apply Hinv|]. rewrite Hinv.
  destruct (tasks w !! id) as [[]|]; cbn; lia.
Qed.

End SettleOnce.

Lemma promise_settles_once_witness :
  outcomes 1 (trace (Demo.after (Demo.page "new")
                       (Demo.rejectedThenReplayed
                        ++ [Response 1 (Failure (Some 401))])))
  = [Rejected (Some 401)].
Proof.
  destruct (promise_settles_once Demo.jwtDecode Demo.persistJSON
              (Demo.page "new")
              (Demo.rejectedThenReplayed ++ [Response 1 (Failure (Some 401))])
              (Demo.after (Demo.page "new")
                 (Demo.rejectedThenReplayed
                  ++ [Response 1 (Failure (Some 401))])) 1)
    as [Hout _];
    [reflexivity | reflexivity | reflexivity | vm_compute; reflexivity |].
  rewrite Hout. vm_compute. reflexivity.
Defined.

(** * Persian digits *)

Section PersianText.

Import Persian.

Lemma isDigit_cases (u : N) :
  isDigit u = true →
  (u = 48 ∨ u = 49 ∨ u = 50 ∨ u = 51 ∨ u = 52 ∨
   u = 53 ∨ u = 54 ∨ u = 55 ∨ u = 56 ∨ u = 57)%N.
Proof.
  unfold isDigit. rewrite andb_true_iff, !N.leb_le. lia.
Qed.

Lemma replaceDigit_shift (u : N) :
  isDigit u = true → replaceDigit u = (u + 1728)%N.
Proof.
  intros Hd. apply isDigit_cases in Hd.
  repeat destruct Hd as [-> | Hd]; try subst u; reflexivity.
Qed.

Lemma replaceDigit_not_digit (u : N) :
  isDigit u = true → isDigit (replaceDigit u) = false.
Proof.
  intros Hd. apply isDigit_cases in Hd.
  repeat destruct Hd as [-> | Hd]; try subst u; reflexivity.
Qed.

(** X17: [toPersianNumber] keeps the length of a string, leaves no ASCII
    digit in it, and applying it again changes nothing. *)
Theorem toPersianNumber_idempotent (s : list N) :
  length (toPersianNumber s) = length s ∧
  Forall (λ u, isDigit u = false) (toPersianNumber s) ∧
  toPersianNumber (toPersianNumber s) = toPersianNumber s.
Proof.
  unfold toPersianNumber. split; [apply length_map|].
  induction s as [|u s [IHd IHi]]; [by split|].
  cbn [map]. destruct (isDigit u) eqn:Hd.
  - pose proof (replaceDigit_not_digit u Hd) as Hn.
    split; [by constructor|]. by rewrite Hn, IHi.
  - split; [by constructor|]. by rewrite Hd, IHi.
Qed.

(** X18: on strings that hold no Persian digit, [toPersianNumber] loses
    nothing: two such strings with the same image are equal. *)
Theorem toPersianNumber_injective (s s' : list N) :
  Forall (λ u, isPersianDigit u = false) s →
  Forall (λ u, isPersianDigit u = false) s' →
  toPersianNumber s = toPersianNumber s' →
  s = s'.
Proof.
  unfold toPersianNumber. intros Hs. revert s'.
  induction Hs as [|u s Hu Hs IH]; intros s' Hs' Heq.
  - destruct s'; [done | discriminate].
  - destruct Hs' as [|u' s' Hu' Hs']; [discriminate|].
    cbn [map] in Heq. injection Heq as Hhead Htail.
    f_equal; [|by apply IH].
    unfold isPersianDigit in Hu, Hu'.
    apply andb_false_iff in Hu, Hu'. rewrite !N.leb_gt in Hu, Hu'.
    destruct (isDigit u) eqn:Hd, (isDigit u') eqn:Hd'.
    + rewrite !replaceDigit_shift in Hhead by done. lia.
    + rewrite replaceDigit_shift in Hhead by done.
      apply isDigit_cases in Hd. lia.
    + rewrite replaceDigit_shift in Hhead by done.
      apply isDigit_cases in Hd'. lia.
    + done.
Qed.


End PersianText.

Lemma toPersianNumber_injective_witness :
  Persian.toString 59 = [53; 57]%N.
Proof.
  apply (toPersianNumber_injective (Persian.toString 59) [53; 57]%N);
    [vm_compute; repeat constructor | repeat constructor | reflexivity].
Defined.


(** * Toasts and notifications *)

Section UIStoreProperties.

Context {ToastType ReactNode Details : Type}.

Implicit Types (state : @UIState ToastType ReactNode Details)
  (n : @Notification Details) (t : @Toast ToastType).

Lemma perform_counter state (a : @UIAction ToastType ReactNode Details) :
  (0 ≤ unreadCount state)%Z → (0 ≤ unreadCount (perform state a))%Z.
Proof. intros Hc. destruct a; cbn; lia. Qed.

(** X20: the unread counter never goes below zero, whatever calls of the
    store's actions follow one another. *)
Theorem unreadCount_never_negative state
    (calls : list (@UIAction ToastType ReactNode Details)) :
  (0 ≤ unreadCount state)%Z →
  (0 ≤ unreadCount (foldl perform state calls))%Z.
Proof.
  revert state. induction calls as [|a calls IH]; intros state Hc; [done|].
  cbn [foldl]. by apply IH, perform_counter.
Qed.

Lemma filter_fresh (id : string) (l : list (@Toast ToastType)) :
  Forall (λ t, toast_id t ≠ id) l →
  List.filter (λ t, negb (String.eqb (toast_id t) id)) l = l.
Proof.
  induction 1 as [|t l Ht Hl IH]; [reflexivity|]. cbn.
  apply String.eqb_neq in Ht. by rewrite Ht, IH.
Qed.

(** X21: the timer of a toast removes it.  [removeToast id] after
    [addToast id] leaves the toasts that [removeToast id] alone would
    have left; when no earlier toast carries [id], the store is back
    where it was. *)
Theorem toast_timer_removes_toast (id : string) (type : ToastType)
    (message : string) state :
  toasts (removeToast id (addToast id type message state))
    = toasts (removeToast id state) ∧
  (Forall (λ t, toast_id t ≠ id) (toasts state) →
   removeToast id (addToast id type message state) = state).
Proof.
  assert (toasts (removeToast id (addToast id type message state))
          = toasts (removeToast id state)) as Hgen.
  { cbn. rewrite List.filter_app. cbn. rewrite String.eqb_refl. cbn.
    by rewrite app_nil_r. }
  split; [exact Hgen|]. intros Hfresh.
  destruct state as [ts ns c g o b]. cbn in *.
  unfold removeToast, addToast in *. cbn in *. f_equal.
  rewrite Hgen. by apply filter_fresh.
Qed.

Lemma mark_read_already (id : string) (l : list (@Notification Details)) :
  Forall (λ n, notification_id n = id → read n = true) l →
  map (λ n, if String.eqb (notification_id n) id
            then mkNotification (notification_id n) (created_at n) true
                   (details n)
            else n) l = l.
Proof.
  induction 1 as [|n l Hn Hl IH]; [reflexivity|]. cbn. rewrite IH. f_equal.
  destruct (String.eqb (notification_id n) id) eqn:He; [|reflexivity].
  apply String.eqb_eq in He. destruct n as [i c r d]. cbn in *.
  by rewrite (Hn He).
Qed.

(** X22: [markAsRead] lowers the counter whether or not it marks
    anything.  When no unread notification carries [id] (the id is unknown,
    or its notification was read before), the notifications stay as they
    are and the counter still drops by one, down to zero. *)
Theorem markAsRead_always_counts (id : string) state :
  Forall (λ n, notification_id n = id → read n = true)
    (notifications state) →
  notifications (markAsRead id state) = notifications state ∧
  unreadCount (markAsRead id state) = Z.max 0 (unreadCount state - 1).
Proof.
  intros Hread. split; [|reflexivity]. cbn. by apply mark_read_already.
Qed.

(** X23: [markAllAsRead] leaves every notification read and the counter at
    zero, keeps their ids in order, and a second call changes nothing. *)
Theorem markAllAsRead_reads_all state :
  Forall (λ n, read n = true) (notifications (markAllAsRead state)) ∧
  unreadCount (markAllAsRead state) = 0%Z ∧
  map notification_id (notifications (markAllAsRead state))
    = map notification_id (notifications state) ∧
  markAllAsRead (markAllAsRead state) = markAllAsRead state.
Proof.
  destruct state as [ts ns c g o b]. unfold markAllAsRead. cbn.
  split; [|split; [reflexivity|split]].
  - induction ns as [|n ns IH]; by constructor.
  - induction ns as [|n ns IH]; [reflexivity|]. cbn. by rewrite IH.
  - f_equal. induction ns as [|n ns IH]; [reflexivity|]. cbn. by rewrite IH.
Qed.

(** X24: reading a new notification restores the counter.  After
    [addNotification] of an unread notification under an id no other
    notification carries, [markAsRead] of that id marks it and nothing
    else, and the counter is what it was before the two calls (when it was
    not negative). *)
Theorem notification_read_restores_count (id now : string) (rest : Details)
    state :
  (0 ≤ unreadCount state)%Z →
  Forall (λ n, notification_id n ≠ id) (notifications state) →
  notifications (markAsRead id (addNotification id now false rest state))
    = mkNotification id now true rest :: notifications state ∧
  unreadCount (markAsRead id (addNotification id now false rest state))
    = unreadCount state.
Proof.
  intros Hc Hfresh. split; [|cbn; lia].
  cbn. rewrite String.eqb_refl. f_equal.
  apply mark_read_already.
  eapply Forall_impl; [exact Hfresh|]. cbn. intros n Hne Heq. done.
Qed.

End UIStoreProperties.

Lemma unreadCount_never_negative_witness :
  (0 ≤ unreadCount
         (foldl perform (@initialUI unit unit unit)
            [MarkAsRead "a";
             AddNotification "b" "2026" false tt;
             MarkAllAsRead;
             MarkAsRead "b"]))%Z.
Proof.
  apply unreadCount_never_negative. cbn. lia.
Defined.

Lemma toast_timer_removes_toast_witness :
  removeToast "k3" (addToast "k3" tt "saved" (@initialUI unit unit unit))
  = initialUI.
Proof.
  apply (proj2 (toast_timer_removes_toast "k3" tt "saved" initialUI)).
  constructor.
Defined.

Lemma markAsRead_always_counts_witness :
  unreadCount
    (markAsRead "a"
       (addNotification "b" "2026" false tt (@initialUI unit unit unit)))
  = 0%Z.
Proof.
  destruct (markAsRead_always_counts "a"
              (addNotification "b" "2026" false tt
                 (@initialUI unit unit unit))) as [_ Hcount].
  - repeat constructor. cbn. discriminate.
  - rewrite Hcount. reflexivity.
Defined.

Lemma notification_read_restores_count_witness :
  unreadCount
    (markAsRead "b"
       (addNotification "b" "2026" false tt (@initialUI unit unit unit)))
  = 0%Z.
Proof.
  destruct (notification_read_restores_count "b" "2026" tt
              (@initialUI unit unit unit)) as [_ Hcount];
    [cbn; lia | constructor |].
  rewrite Hcount. reflexivity.
Defined.
